(** * Byte-pair-encoding tokenizer ([bpe_tokenizer_wikitext.py])

    A shallow embedding of the tokenizer's core: the corpus framer
    (join / [split_on_sep]), the pair frequency counter
    ([get_byte_pair_frequency]), the merge applier ([merge_byte_pair]), the
    merge learner ([byte_pair_encoding]) and the decoder
    ([decode_byte_pair]), followed by the properties stated about them.

    Conventions.
    - A Python [int] is a [Z]; a list index or a loop counter is a [nat].
    - A Python [str] is the list of its code points, a [bytes] object (and
      the list of ints made from it) is a list of integers in 0..255.
    - A Python [dict] is an association list in insertion order.
    - A raised exception is the [Raise] constructor of [result]. *)

From Stdlib Require Import ZArith List Bool Arith Lia Sorted.
From Equations Require Import Equations.
Import ListNotations.

Set Implicit Arguments.
Open Scope Z_scope.

(** ** Exceptions *)

Inductive py_exception : Type :=
| ValueError
| UnicodeEncodeError
| UnicodeDecodeError
| KeyError.

Inductive result (A : Type) : Type :=
| Ok (a : A)
| Raise (e : py_exception).

Arguments Ok {A} a.
Arguments Raise {A} e.

Definition bind {A B : Type} (r : result A) (k : A -> result B) : result B :=
  match r with
  | Ok a => k a
  | Raise e => Raise e
  end.

Notation "x <- r ;; k" := (bind r (fun x => k))
  (at level 61, r at next level, right associativity).

(** ** Tokens and pairs *)

Abbreviation token := Z (only parsing).
Abbreviation pair_t := (Z * Z)%type (only parsing).

Definition pair_eqb (p q : pair_t) : bool :=
  (fst p =? fst q) && (snd p =? snd q).

(** ** Merge applier: [merge_byte_pair] (source lines 87-102) *)

(** The [while i < len(byte_sequence)] loop.  [nth] stands for indexing; the
    index [i + 1] is read only when [i < len(byte_sequence) - 1]. *)
Equations? merge_loop (byte_sequence : list token) (pr : pair_t)
    (new_token : token) (i : nat) (new_sequence : list token) : list token
    by wf (length byte_sequence - i)%nat lt :=
  merge_loop byte_sequence pr new_token i new_sequence
    with lt_dec i (length byte_sequence) => {
    | left _
        with ((i <? length byte_sequence - 1)%nat
              && pair_eqb (nth i byte_sequence 0, nth (i + 1) byte_sequence 0)
                          pr) => {
        | true :=
            merge_loop byte_sequence pr new_token (i + 2)
                       (new_sequence ++ [new_token]);
        | false :=
            merge_loop byte_sequence pr new_token (i + 1)
                       (new_sequence ++ [nth i byte_sequence 0]) };
    | right _ := new_sequence }.
Proof. all: lia. Qed.

Definition merge_byte_pair (byte_sequence : list token) (pr : pair_t)
    (new_token : token) : list token :=
  merge_loop byte_sequence pr new_token 0 [].

(** The applier rule in the words of the specification: at each position,
    emit the new id and advance two positions when the current and next
    element equal the pair, otherwise emit the current element and advance
    one position. *)
Fixpoint apply_rule (seq : list token) (pr : pair_t) (new_id : token)
    : list token :=
  match seq with
  | [] => []
  | x :: tl =>
      match tl with
      | [] => [x]
      | y :: rest =>
          if pair_eqb (x, y) pr
          then new_id :: apply_rule rest pr new_id
          else x :: apply_rule tl pr new_id
      end
  end.

(** ** Insertion-ordered dictionaries

    A Python [dict] keeps its keys in insertion order; assigning to an
    existing key replaces the value in place, assigning to a new key appends
    the entry. *)

Section Dict.
Variables K V : Type.
Variable eqb : K -> K -> bool.

Definition dict := list (K * V).

Fixpoint dict_get (d : dict) (k : K) : option V :=
  match d with
  | [] => None
  | (k', v) :: d' => if eqb k' k then Some v else dict_get d' k
  end.

(** [k in d] *)
Definition dict_contains (d : dict) (k : K) : bool :=
  match dict_get d k with
  | Some _ => true
  | None => false
  end.

(** [d[k] = v] *)
Fixpoint dict_set (d : dict) (k : K) (v : V) : dict :=
  match d with
  | [] => [(k, v)]
  | (k', v') :: d' =>
      if eqb k' k then (k', v) :: d' else (k', v') :: dict_set d' k v
  end.

(** [d.get(k)] with the value [dflt] standing for a missing key. *)
Definition dict_get_default (d : dict) (k : K) (dflt : V) : V :=
  match dict_get d k with
  | Some v => v
  | None => dflt
  end.

(** [d[k]], which raises [KeyError] on a missing key. *)
Definition dict_subscript (d : dict) (k : K) : result V :=
  match dict_get d k with
  | Some v => Ok v
  | None => Raise KeyError
  end.

Definition dict_keys (d : dict) : list K := map fst d.
Definition dict_values (d : dict) : list V := map snd d.
End Dict.

(** ** Built-ins used by the tokenizer *)

(** [max(l)] on a list of ints: the first largest element; [ValueError] on
    an empty list. *)
Definition py_max (l : list Z) : result Z :=
  match l with
  | [] => Raise ValueError
  | x :: rest => Ok (fold_left (fun m v => if m <? v then v else m) rest x)
  end.

(** [max(items, key=key)]: the first item whose key is largest. *)
Definition py_max_key (A : Type) (key : A -> Z) (items : list A) : result A :=
  match items with
  | [] => Raise ValueError
  | x :: rest =>
      Ok (fold_left (fun m v => if key m <? key v then v else m) rest x)
  end.

(** [sep.join(parts)] *)
Fixpoint join (A : Type) (sep : list A) (parts : list (list A)) : list A :=
  match parts with
  | [] => []
  | p :: rest =>
      match rest with
      | [] => p
      | _ :: _ => p ++ sep ++ join sep rest
      end
  end.

Definition in_range (lo hi b : Z) : bool := (lo <=? b) && (b <=? hi).

(** [bytes(l)]: every element must be in [range(0, 256)]. *)
Definition py_bytes (l : list Z) : result (list Z) :=
  if forallb (in_range 0 255) l then Ok l else Raise ValueError.

(** ** Strings and UTF-8 *)

(** A [str] is the list of its code points. *)
Abbreviation str := (list Z) (only parsing).

Definition is_surrogate (c : Z) : bool := in_range 0xD800 0xDFFF c.

(** [c.encode("utf-8")] for one code point.  Surrogates cannot be encoded;
    integers outside 0..0x10FFFF are not code points of any [str]. *)
Definition utf8_encode_char (c : Z) : result (list Z) :=
  if c <? 0 then Raise UnicodeEncodeError
  else if c <? 0x80 then Ok [c]
  else if c <? 0x800 then
    Ok [Z.lor 0xC0 (Z.shiftr c 6); Z.lor 0x80 (Z.land c 0x3F)]
  else if c <? 0x10000 then
    if is_surrogate c then Raise UnicodeEncodeError
    else Ok [Z.lor 0xE0 (Z.shiftr c 12);
             Z.lor 0x80 (Z.land (Z.shiftr c 6) 0x3F);
             Z.lor 0x80 (Z.land c 0x3F)]
  else if c <? 0x110000 then
    Ok [Z.lor 0xF0 (Z.shiftr c 18);
        Z.lor 0x80 (Z.land (Z.shiftr c 12) 0x3F);
        Z.lor 0x80 (Z.land (Z.shiftr c 6) 0x3F);
        Z.lor 0x80 (Z.land c 0x3F)]
  else Raise UnicodeEncodeError.

(** [s.encode("utf-8")] *)
Fixpoint utf8_encode (s : str) : result (list Z) :=
  match s with
  | [] => Ok []
  | c :: rest =>
      bs <- utf8_encode_char c ;;
      more <- utf8_encode rest ;;
      Ok (bs ++ more)
  end.

Definition is_cont (b : Z) : bool := in_range 0x80 0xBF b.

(** Admissible second byte after the lead byte [b0] of a three-byte form:
    no overlong form after 0xE0, no surrogate after 0xED. *)
Definition second_ok3 (b0 b1 : Z) : bool :=
  if b0 =? 0xE0 then in_range 0xA0 0xBF b1
  else if b0 =? 0xED then in_range 0x80 0x9F b1
  else is_cont b1.

(** Admissible second byte after the lead byte [b0] of a four-byte form:
    no overlong form after 0xF0, nothing above 0x10FFFF after 0xF4. *)
Definition second_ok4 (b0 b1 : Z) : bool :=
  if b0 =? 0xF0 then in_range 0x90 0xBF b1
  else if b0 =? 0xF4 then in_range 0x80 0x8F b1
  else is_cont b1.

(** [bs.decode("utf-8")] with the default strict error handler. *)
Fixpoint utf8_decode (bs : list Z) : result str :=
  match bs with
  | [] => Ok []
  | b0 :: r0 =>
      if in_range 0 0x7F b0 then
        s <- utf8_decode r0 ;; Ok (b0 :: s)
      else if in_range 0xC2 0xDF b0 then
        match r0 with
        | b1 :: r1 =>
            if is_cont b1 then
              s <- utf8_decode r1 ;;
              Ok (Z.lor (Z.shiftl (Z.land b0 0x1F) 6) (Z.land b1 0x3F) :: s)
            else Raise UnicodeDecodeError
        | _ => Raise UnicodeDecodeError
        end
      else if in_range 0xE0 0xEF b0 then
        match r0 with
        | b1 :: b2 :: r2 =>
            if second_ok3 b0 b1 && is_cont b2 then
              s <- utf8_decode r2 ;;
              Ok (Z.lor (Z.lor (Z.shiftl (Z.land b0 0x0F) 12)
                               (Z.shiftl (Z.land b1 0x3F) 6))
                        (Z.land b2 0x3F) :: s)
            else Raise UnicodeDecodeError
        | _ => Raise UnicodeDecodeError
        end
      else if in_range 0xF0 0xF4 b0 then
        match r0 with
        | b1 :: b2 :: b3 :: r3 =>
            if second_ok4 b0 b1 && is_cont b2 && is_cont b3 then
              s <- utf8_decode r3 ;;
              Ok (Z.lor (Z.lor (Z.lor (Z.shiftl (Z.land b0 0x07) 18)
                                      (Z.shiftl (Z.land b1 0x3F) 12))
                               (Z.shiftl (Z.land b2 0x3F) 6))
                        (Z.land b3 0x3F) :: s)
            else Raise UnicodeDecodeError
        | _ => Raise UnicodeDecodeError
        end
      else Raise UnicodeDecodeError
  end.

(** [text.startswith(prefix)] *)
Fixpoint starts_with (prefix text : str) : bool :=
  match prefix with
  | [] => true
  | p :: ps =>
      match text with
      | [] => false
      | c :: cs => (p =? c) && starts_with ps cs
      end
  end.

(** The scan of [text.split(sep)] for the non-empty separator
    [s0 :: sep']: the leftmost occurrence closes the current piece and the
    scan resumes after it. *)
Equations? split_loop (s0 : Z) (sep' : str) (text : str) (cur : str)
    : list str by wf (length text) lt :=
  split_loop s0 sep' [] cur := [cur];
  split_loop s0 sep' (c :: rest) cur
    with starts_with (s0 :: sep') (c :: rest) => {
    | true := cur :: split_loop s0 sep' (skipn (length sep') rest) [];
    | false := split_loop s0 sep' rest (cur ++ [c]) }.
Proof. all: simpl; try rewrite length_skipn; lia. Qed.

(** [text.split(sep)]: [ValueError] on an empty separator. *)
Definition str_split (text sep : str) : result (list str) :=
  match sep with
  | [] => Raise ValueError
  | s0 :: sep' => Ok (split_loop s0 sep' text [])
  end.

(** ** The separator (source lines 46-48) *)

(** ["[SEP]"] *)
Definition SEP_TOKEN : str := [91; 83; 69; 80; 93].

(** [SEP_TOKEN.encode("utf-8")]: five ASCII bytes. *)
Definition SEP_TOKEN_BYTES : list Z := [91; 83; 69; 80; 93].

(** ** Pair frequency counter: [get_byte_pair_frequency] (lines 79-84) *)

(** [pairs[pair] += 1] on a [defaultdict(int)] *)
Definition defaultdict_incr (pairs : dict pair_t Z) (pr : pair_t)
    : dict pair_t Z :=
  dict_set pair_eqb pairs pr (dict_get_default pair_eqb pairs pr 0 + 1).

(** [for i in range(len(byte_sequence) - 1)]; the range is empty when the
    sequence has fewer than two elements. *)
Definition get_byte_pair_frequency (byte_sequence : list token)
    : dict pair_t Z :=
  fold_left
    (fun pairs i =>
       defaultdict_incr pairs
         (nth i byte_sequence 0, nth (i + 1) byte_sequence 0))
    (seq 0 (length byte_sequence - 1))
    [].

(** ** Merge learner: [byte_pair_encoding] (lines 51-76) *)

Record train_state : Type := mk_state {
  byte_text : list token;
  token_id : Z;
  merge_map : dict pair_t token
}.

(** One pass through the body of [for _ in range(num_merges)].  [Ok None]
    is the [break] taken when the frequency table is empty. *)
Definition bpe_iteration (st : train_state) : result (option train_state) :=
  let pairs := get_byte_pair_frequency (byte_text st) in
  match pairs with
  | [] => Ok None
  | _ :: _ =>
      (* [pairs.get] is applied to keys of [pairs] only, so the default is
         never returned. *)
      most_frequent_pair <-
        py_max_key (fun k => dict_get_default pair_eqb pairs k 0)
                   (dict_keys pairs) ;;
      let '(merge_map', token_id') :=
        if negb (dict_contains pair_eqb (merge_map st) most_frequent_pair)
        then (dict_set pair_eqb (merge_map st) most_frequent_pair
                       (token_id st),
              token_id st + 1)
        else (merge_map st, token_id st) in
      new_token <- dict_subscript pair_eqb merge_map' most_frequent_pair ;;
      Ok (Some (mk_state
                  (merge_byte_pair (byte_text st) most_frequent_pair
                                   new_token)
                  token_id' merge_map'))
  end.

(** The [for] loop run for (at most) [n] iterations. *)
Fixpoint bpe_loop (n : nat) (st : train_state) : result train_state :=
  match n with
  | O => Ok st
  | S n' =>
      r <- bpe_iteration st ;;
      match r with
      | None => Ok st
      | Some st' => bpe_loop n' st'
      end
  end.

(** [text.encode("utf-8") for text in texts] *)
Fixpoint encode_all (texts : list str) : result (list (list Z)) :=
  match texts with
  | [] => Ok []
  | text :: rest =>
      b <- utf8_encode text ;;
      bs <- encode_all rest ;;
      Ok (b :: bs)
  end.

(** The corpus framer's join (lines 55-57): the joined corpus as a list of
    ints. *)
Definition join_corpus (texts : list str) : result (list token) :=
  parts <- encode_all texts ;;
  Ok (join SEP_TOKEN_BYTES parts).

Definition byte_pair_encoding (texts : list str) (num_merges : Z)
    : result (list token * dict pair_t token) :=
  byte_text0 <- join_corpus texts ;;
  m <- py_max byte_text0 ;;
  st <- bpe_loop (Z.to_nat num_merges) (mk_state byte_text0 (m + 1) []) ;;
  Ok (byte_text st, merge_map st).

(** ** Decoder: [decode_byte_pair] (lines 105-121) *)

(** [{v: k for k, v in merge_map.items()}] *)
Definition reverse_map (merge_map : dict pair_t token) : dict token pair_t :=
  fold_left (fun d kv => dict_set Z.eqb d (snd kv) (fst kv)) merge_map [].

(** [stack.pop()]: the last element of a Python list and the list without
    it. *)
Definition list_pop (stack : list token) : option (token * list token) :=
  match rev stack with
  | [] => None
  | x :: r => Some (x, rev r)
  end.

(** The [while stack] loop.  It need not terminate (a merge map may send an
    id to itself), so the loop takes fuel; [None] means the fuel ran out. *)
Fixpoint decode_loop (fuel : nat) (reverse_merge_map : dict token pair_t)
    (stack decoded_sequence : list token) : option (list token) :=
  match fuel with
  | O => None
  | S fuel' =>
      match list_pop stack with
      | None => Some decoded_sequence
      | Some (tok, stack') =>
          match dict_get Z.eqb reverse_merge_map tok with
          | Some (first, second) =>
              decode_loop fuel' reverse_merge_map
                          ((stack' ++ [second]) ++ [first]) decoded_sequence
          | None =>
              decode_loop fuel' reverse_merge_map stack'
                          (decoded_sequence ++ [tok])
          end
      end
  end.

(** [bytes(decoded_sequence).decode("utf-8")] *)
Definition bytes_to_text (decoded_sequence : list token) : result str :=
  b <- py_bytes decoded_sequence ;;
  utf8_decode b.

Definition decode_byte_pair (fuel : nat) (encoded_sequence : list token)
    (merge_map : dict pair_t token) : option (result str) :=
  match decode_loop fuel (reverse_map merge_map) (rev encoded_sequence) [] with
  | None => None
  | Some decoded_sequence => Some (bytes_to_text decoded_sequence)
  end.

(** ** Corpus framer's split: [split_on_sep] (lines 124-125) *)

Definition split_on_sep (decoded_text : str) (sep_token : str)
    : result (list str) :=
  str_split decoded_text sep_token.

(** The call with the default argument [sep_token=SEP_TOKEN]. *)
Definition split_on_sep_default (decoded_text : str) : result (list str) :=
  split_on_sep decoded_text SEP_TOKEN.

(** ** Notions used to state the properties *)

(** The pair [pr] occurs at positions [i], [i + 1] of [s]. *)
Definition occurs_at (pr : pair_t) (s : list token) (i : nat) : Prop :=
  (i + 1 < length s)%nat /\ (nth i s 0, nth (i + 1) s 0) = pr.

Definition occurs_adjacent (pr : pair_t) (s : list token) : Prop :=
  exists i, occurs_at pr s i.

(** Number of indices [i] in [0, len(s) - 2] with [(s[i], s[i+1]) = pr]
    (overlapping occurrences all count). *)
Definition pair_occurrences (s : list token) (pr : pair_t) : Z :=
  Z.of_nat
    (length (filter (fun i => pair_eqb (nth i s 0, nth (i + 1) s 0) pr)
                    (seq 0 (length s - 1)))).

(** Number of non-overlapping occurrences of [pr] met by a left-to-right
    scan of [s]. *)
Fixpoint nonoverlapping_occurrences (s : list token) (pr : pair_t) : nat :=
  match s with
  | [] => O
  | x :: tl =>
      match tl with
      | [] => O
      | y :: rest =>
          if pair_eqb (x, y) pr
          then S (nonoverlapping_occurrences rest pr)
          else nonoverlapping_occurrences tl pr
      end
  end.

Definition is_byte (b : Z) : Prop := 0 <= b <= 255.

(** A Unicode scalar value: a code point that is not a surrogate. *)
Definition scalar_value (c : Z) : Prop :=
  0 <= c <= 0x10FFFF /\ ~ (0xD800 <= c <= 0xDFFF).

(** A text block that [encode("utf-8")] accepts. *)
Definition utf8_text (s : str) : Prop := Forall scalar_value s.

(** [sub in text] *)
Fixpoint contains (sub text : str) : bool :=
  starts_with sub text
  || match text with
     | [] => false
     | _ :: rest => contains sub rest
     end.

(** Number of positions of [text] at which [sep] starts. *)
Fixpoint occurrences (sep text : str) : nat :=
  match text with
  | [] => O
  | _ :: rest =>
      ((if starts_with sep text then 1 else 0) + occurrences sep rest)%nat
  end.

(** The full expansion of a token under an inverse merge map: an id of the
    map expands to the expansion of its first constituent followed by that
    of its second, any other token stands for itself. *)
Inductive expands (rmm : dict token pair_t) : token -> list token -> Prop :=
| expands_raw t :
    dict_get Z.eqb rmm t = None -> expands rmm t [t]
| expands_id t a b la lb :
    dict_get Z.eqb rmm t = Some (a, b) ->
    expands rmm a la -> expands rmm b lb -> expands rmm t (la ++ lb).

Inductive expands_list (rmm : dict token pair_t)
    : list token -> list token -> Prop :=
| expands_nil : expands_list rmm [] []
| expands_cons t ts l ls :
    expands rmm t l -> expands_list rmm ts ls ->
    expands_list rmm (t :: ts) (l ++ ls).

(** Every id of the merge map is greater than both ids of its pair. *)
Definition acyclic (mm : dict pair_t token) : Prop :=
  forall a b id, In ((a, b), id) mm -> a < id /\ b < id.

(** The adjacent pair read at index [i] by the counting loop. *)
Definition pairs_at (s : list token) (i : nat) : pair_t :=
  (nth i s 0, nth (i + 1) s 0).

(** Number of entries of [ks] equal to [p]. *)
Definition key_count (ks : list pair_t) (p : pair_t) : Z :=
  Z.of_nat (length (filter (fun k => pair_eqb k p) ks)).

(** The state a non-breaking iteration reaches when it selects [p]. *)
Definition merged_state (st : train_state) (p : pair_t) : train_state :=
  match dict_get pair_eqb (merge_map st) p with
  | Some id =>
      mk_state (merge_byte_pair (byte_text st) p id)
               (token_id st) (merge_map st)
  | None =>
      mk_state (merge_byte_pair (byte_text st) p (token_id st))
               (token_id st + 1) (merge_map st ++ [(p, token_id st)])
  end.

(** What every state of a training run satisfies, [m0] being the largest
    byte of the joined corpus: the tokens of the working sequence are below
    the id counter; every recorded id is above both ids of its pair, above
    [m0] and below the counter; no pair is recorded twice; the recorded ids
    increase in insertion order. *)
Definition train_inv (m0 : Z) (st : train_state) : Prop :=
  (forall t, In t (byte_text st) -> t < token_id st)
  /\ (forall a b id,
        In ((a, b), id) (merge_map st) ->
        a < id /\ b < id /\ m0 < id /\ id < token_id st)
  /\ NoDup (dict_keys (merge_map st))
  /\ StronglySorted Z.lt (dict_values (merge_map st)).

(** What links a state of a training run to the joined corpus: the working
    sequence expands to the corpus under the inverse of the merge map, and
    the inverse map sends the id of every recorded pair back to the pair. *)
Definition decode_inv (corpus : list token) (st : train_state) : Prop :=
  expands_list (reverse_map (merge_map st)) (byte_text st) corpus
  /\ (forall p id,
        dict_get pair_eqb (merge_map st) p = Some id ->
        dict_get Z.eqb (reverse_map (merge_map st)) id = Some p).

(** Number of ids of the inverse map that are at most [t]. *)
Definition below_count (rmm : dict token pair_t) (t : token) : nat :=
  length (filter (fun k => k <=? t) (dict_keys rmm)).

(** The [n] consecutive ids [start], [start + 1], ... *)
Definition ids_from (start : Z) (n : nat) : list Z :=
  map (fun k => start + Z.of_nat k) (seq 0 n).

(** What more every state of a training run satisfies, [m0] being the
    largest byte of the joined corpus: no recorded pair is adjacent in the
    working sequence; the recorded ids are consecutive from [m0 + 1]; the
    counter is the next id; the working sequence is not empty. *)
Definition merged_inv (m0 : Z) (st : train_state) : Prop :=
  (forall p id, In (p, id) (merge_map st) ->
                ~ occurs_adjacent p (byte_text st))
  /\ dict_values (merge_map st) = ids_from (m0 + 1) (length (merge_map st))
  /\ token_id st = m0 + 1 + Z.of_nat (length (merge_map st))
  /\ byte_text st <> [].

(** ** The script (lines 128-142) *)

(** [num_merges = 5000] *)
Definition num_merges : Z := 5000.

(** [enumerate(l)] *)
Definition enumerate (A : Type) (l : list A) : list (nat * A) :=
  combine (seq 0 (length l)) l.

(** The script from the blocks it tokenizes to what its final loop goes
    through: [texts] stands for [dataset["text"][:100]], the result is the
    list of the triples [(i, (original, block))] that are printed.  [None]
    means that the fuel of the decoding loop ran out. *)
Definition script (fuel : nat) (texts : list str)
    : option (result (list (nat * (str * str)))) :=
  match byte_pair_encoding texts num_merges with
  | Raise e => Some (Raise e)
  | Ok (encoded, mmap) =>
      match decode_byte_pair fuel encoded mmap with
      | None => None
      | Some (Raise e) => Some (Raise e)
      | Some (Ok decoded) =>
          match split_on_sep_default decoded with
          | Raise e => Some (Raise e)
          | Ok text_blocks =>
              Some (Ok (enumerate (combine texts text_blocks)))
          end
      end
  end.

(** The tokens the expansion of an encoded sequence goes through: the
    tokens of the sequence and, for every id of the inverse map among the
    tokens met, both ids of its pair. *)
Inductive encounters (rmm : dict token pair_t) (enc : list token)
    : token -> Prop :=
| encounters_input t : In t enc -> encounters rmm enc t
| encounters_first t a b :
    encounters rmm enc t -> dict_get Z.eqb rmm t = Some (a, b) ->
    encounters rmm enc a
| encounters_second t a b :
    encounters rmm enc t -> dict_get Z.eqb rmm t = Some (a, b) ->
    encounters rmm enc b.

(** * Properties *)

Lemma pair_eqb_spec (p q : pair_t) : reflect (p = q) (pair_eqb p q).
Proof.
  destruct p as [a b], q as [c d]; unfold pair_eqb; simpl.
  destruct (Z.eqb_spec a c), (Z.eqb_spec b d); simpl; constructor; congruence.
Qed.

Lemma pair_eqb_refl (p : pair_t) : pair_eqb p p = true.
Proof. destruct (pair_eqb_spec p p); congruence. Qed.

Lemma pair_eqb_eq (p q : pair_t) : pair_eqb p q = true <-> p = q.
Proof. destruct (pair_eqb_spec p q); split; congruence. Qed.

Lemma pair_eqb_neq (p q : pair_t) : pair_eqb p q = false <-> p <> q.
Proof. destruct (pair_eqb_spec p q); split; congruence. Qed.

(** ** Merge applier *)

Lemma skipn_nth_cons (l : list token) (i : nat) :
  (i < length l)%nat -> skipn i l = nth i l 0 :: skipn (S i) l.
Proof.
  revert i; induction l as [|x l IH]; intros [|i] H; simpl in *; try lia.
  - reflexivity.
  - apply IH; lia.
Qed.

Lemma merge_loop_rule (s : list token) (pr : pair_t) (new_token : token)
    (i : nat) (acc : list token) :
  merge_loop s pr new_token i acc = acc ++ apply_rule (skipn i s) pr new_token.
Proof.
  funelim (merge_loop s pr new_token i acc).
  - rewrite skipn_all2 by lia. simpl. rewrite app_nil_r. reflexivity.
  - match goal with IH : merge_loop _ _ _ _ _ = _ ++ _ |- _ => rewrite IH end.
    match goal with Hc : _ && _ = true |- _ =>
      apply andb_true_iff in Hc as [Hlt Heqb] end.
    apply Nat.ltb_lt in Hlt.
    rewrite (skipn_nth_cons byte_sequence (i := i)) by lia.
    rewrite (skipn_nth_cons byte_sequence (i := S i)) by lia.
    replace (i + 1)%nat with (S i) in Heqb by lia.
    simpl. rewrite Heqb. replace (i + 2)%nat with (S (S i)) by lia.
    rewrite <- app_assoc. reflexivity.
  - match goal with IH : merge_loop _ _ _ _ _ = _ ++ _ |- _ => rewrite IH end.
    rewrite (skipn_nth_cons byte_sequence (i := i)) by lia.
    replace (i + 1)%nat with (S i) in * by lia.
    rewrite <- app_assoc.
    remember (skipn (S i) byte_sequence) as tl eqn:Hs.
    destruct tl as [|y rest]; [reflexivity|].
    assert (Hlen : (S i < length byte_sequence)%nat).
    { destruct (lt_dec (S i) (length byte_sequence)) as [?|Hge]; [assumption|].
      rewrite skipn_all2 in Hs by lia. discriminate. }
    rewrite (skipn_nth_cons byte_sequence (i := S i)) in Hs by lia.
    injection Hs as Hy Hrest.
    match goal with Hc : _ && _ = false |- _ =>
      apply andb_false_iff in Hc as [Hlt | Heqb] end.
    + apply Nat.ltb_ge in Hlt. lia.
    + simpl. rewrite Hy, Heqb. reflexivity.
Qed.

Lemma merge_byte_pair_rule (s : list token) (pr : pair_t) (new_token : token) :
  merge_byte_pair s pr new_token = apply_rule s pr new_token.
Proof. unfold merge_byte_pair. rewrite merge_loop_rule. reflexivity. Qed.

(** C4. Merge applier rule: [merge_byte_pair] scans left to right; at a
    position where the current and next element equal the pair it emits the
    new id and goes on two positions further, otherwise it emits the current
    element and goes on one position further (a last single element is
    emitted as it is).  In particular
    [merge_byte_pair [7,7,7] (7,7) 300 = [300, 7]]. *)
Theorem merge_byte_pair_scan (pr : pair_t) (new_token : token) :
  merge_byte_pair [] pr new_token = []
  /\ (forall x, merge_byte_pair [x] pr new_token = [x])
  /\ (forall x y rest,
        merge_byte_pair (x :: y :: rest) pr new_token
        = if pair_eqb (x, y) pr
          then new_token :: merge_byte_pair rest pr new_token
          else x :: merge_byte_pair (y :: rest) pr new_token)
  /\ merge_byte_pair [7; 7; 7] (7, 7) 300 = [300; 7].
Proof.
  repeat split; intros; rewrite ?merge_byte_pair_rule; reflexivity.
Qed.
(** ** Dictionaries *)

Section DictFacts.
Variables K V : Type.
Variable eqb : K -> K -> bool.
Hypothesis eqb_spec : forall x y, reflect (x = y) (eqb x y).

Lemma eqb_refl_true (k : K) : eqb k k = true.
Proof. destruct (eqb_spec k k); congruence. Qed.

Lemma dict_get_set (d : dict K V) (k k' : K) (v : V) :
  dict_get eqb (dict_set eqb d k v) k'
  = if eqb k k' then Some v else dict_get eqb d k'.
Proof.
  induction d as [|[k0 v0] d IH]; simpl.
  - reflexivity.
  - destruct (eqb_spec k0 k) as [->|Hne]; simpl.
    + destruct (eqb k k'); reflexivity.
    + rewrite IH. destruct (eqb_spec k0 k') as [->|Hne'].
      * destruct (eqb_spec k k'); [congruence | reflexivity].
      * reflexivity.
Qed.

Lemma dict_set_fresh (d : dict K V) (k : K) (v : V) :
  dict_get eqb d k = None -> dict_set eqb d k v = d ++ [(k, v)].
Proof.
  induction d as [|[k0 v0] d IH]; simpl; intros H.
  - reflexivity.
  - destruct (eqb k0 k); [discriminate|]. rewrite IH by assumption.
    reflexivity.
Qed.

Lemma dict_get_In (d : dict K V) (k : K) (v : V) :
  dict_get eqb d k = Some v -> In (k, v) d.
Proof.
  induction d as [|[k0 v0] d IH]; simpl; intros H.
  - discriminate.
  - destruct (eqb_spec k0 k) as [->|Hne].
    + injection H as ->. left; reflexivity.
    + right; auto.
Qed.

Lemma dict_get_None (d : dict K V) (k : K) :
  dict_get eqb d k = None <-> ~ In k (dict_keys d).
Proof.
  induction d as [|[k0 v0] d IH]; simpl.
  - tauto.
  - destruct (eqb_spec k0 k) as [->|Hne].
    + split; [discriminate | tauto].
    + rewrite IH. tauto.
Qed.

Lemma dict_keys_set (d : dict K V) (k k' : K) (v : V) :
  In k' (dict_keys (dict_set eqb d k v)) <-> k' = k \/ In k' (dict_keys d).
Proof.
  induction d as [|[k0 v0] d IH]; simpl.
  - intuition congruence.
  - destruct (eqb_spec k0 k) as [->|Hne]; simpl.
    + intuition congruence.
    + rewrite IH. intuition congruence.
Qed.

Lemma dict_set_NoDup (d : dict K V) (k : K) (v : V) :
  NoDup (dict_keys d) -> NoDup (dict_keys (dict_set eqb d k v)).
Proof.
  induction d as [|[k0 v0] d IH]; simpl; intros Hnd.
  - constructor; [simpl; tauto | constructor].
  - inversion Hnd as [|? ? Hnot Hnd']; subst.
    destruct (eqb_spec k0 k) as [->|Hne]; simpl.
    + constructor; assumption.
    + constructor; [|auto].
      intros Hin. apply dict_keys_set in Hin. destruct Hin; congruence.
Qed.
End DictFacts.

(** ** Pair frequency counter *)

Lemma fold_left_map_arg (A B C : Type) (f : A -> C -> A) (g : B -> C)
    (l : list B) (a : A) :
  fold_left (fun acc i => f acc (g i)) l a = fold_left f (map g l) a.
Proof. revert a; induction l; simpl; auto. Qed.

Lemma filter_map_length (A B : Type) (f : B -> bool) (g : A -> B)
    (l : list A) :
  length (filter f (map g l)) = length (filter (fun x => f (g x)) l).
Proof.
  induction l as [|x l IH]; simpl; [reflexivity|].
  destruct (f (g x)); simpl; rewrite IH; reflexivity.
Qed.

Lemma key_count_nonneg ks p : 0 <= key_count ks p.
Proof. unfold key_count; lia. Qed.

Lemma key_count_cons k ks p :
  key_count (k :: ks) p = (if pair_eqb k p then 1 else 0) + key_count ks p.
Proof.
  unfold key_count; cbn [filter]. destruct (pair_eqb k p); cbn [length]; lia.
Qed.

Lemma fold_incr_get (ks : list pair_t) (d : dict pair_t Z) (p : pair_t) :
  dict_get pair_eqb (fold_left defaultdict_incr ks d) p
  = if key_count ks p =? 0 then dict_get pair_eqb d p
    else Some (dict_get_default pair_eqb d p 0 + key_count ks p).
Proof.
  revert d; induction ks as [|k ks IH]; intros d.
  - reflexivity.
  - simpl fold_left. rewrite IH, key_count_cons.
    pose proof (key_count_nonneg ks p) as Hk.
    unfold defaultdict_incr, dict_get_default.
    rewrite (@dict_get_set _ _ _ pair_eqb_spec).
    destruct (pair_eqb_spec k p) as [->|Hne].
    + destruct (Z.eqb_spec (key_count ks p) 0) as [E|E];
        destruct (Z.eqb_spec (1 + key_count ks p) 0); try lia.
      * rewrite E. destruct (dict_get pair_eqb d p); f_equal; lia.
      * destruct (dict_get pair_eqb d p); f_equal; lia.
    + simpl. reflexivity.
Qed.

Lemma fold_incr_NoDup (ks : list pair_t) (d : dict pair_t Z) :
  NoDup (dict_keys d) -> NoDup (dict_keys (fold_left defaultdict_incr ks d)).
Proof.
  revert d; induction ks as [|k ks IH]; intros d Hd; simpl; [assumption|].
  apply IH. apply (@dict_set_NoDup _ _ _ pair_eqb_spec). assumption.
Qed.

Lemma frequency_as_fold (s : list token) :
  get_byte_pair_frequency s
  = fold_left defaultdict_incr (map (pairs_at s) (seq 0 (length s - 1))) [].
Proof.
  unfold get_byte_pair_frequency.
  rewrite <- (fold_left_map_arg defaultdict_incr (pairs_at s)). reflexivity.
Qed.

Lemma key_count_occurrences (s : list token) (p : pair_t) :
  key_count (map (pairs_at s) (seq 0 (length s - 1))) p = pair_occurrences s p.
Proof.
  unfold key_count, pair_occurrences. rewrite filter_map_length. reflexivity.
Qed.

Lemma frequency_get (s : list token) (p : pair_t) :
  dict_get pair_eqb (get_byte_pair_frequency s) p
  = if pair_occurrences s p =? 0 then None else Some (pair_occurrences s p).
Proof.
  rewrite frequency_as_fold, fold_incr_get, key_count_occurrences.
  reflexivity.
Qed.

Lemma frequency_NoDup (s : list token) :
  NoDup (dict_keys (get_byte_pair_frequency s)).
Proof. rewrite frequency_as_fold. apply fold_incr_NoDup. constructor. Qed.

(** C6. Pair frequency counter: [get_byte_pair_frequency] maps every pair
    to the number of indices [i] in [0, len(seq) - 2] with
    [(seq[i], seq[i+1])] equal to it, overlapping occurrences included (a
    pair that occurs nowhere has no entry); it is a mapping (no key twice);
    it is empty when [len(seq) < 2]; in particular [count([5,5,5])] is
    [{(5,5): 2}] and [count([1])] is [{}]. *)
Theorem get_byte_pair_frequency_counts (s : list token) :
  (forall p,
     dict_get pair_eqb (get_byte_pair_frequency s) p
     = if pair_occurrences s p =? 0 then None
       else Some (pair_occurrences s p))
  /\ NoDup (dict_keys (get_byte_pair_frequency s))
  /\ get_byte_pair_frequency [] = []
  /\ (forall x, get_byte_pair_frequency [x] = [])
  /\ get_byte_pair_frequency [5; 5; 5] = [((5, 5), 2)]
  /\ get_byte_pair_frequency [1] = [].
Proof.
  repeat split; try reflexivity.
  - apply frequency_get.
  - apply frequency_NoDup.
Qed.
(** ** Selection of the most frequent pair *)

Lemma py_max_key_spec (A : Type) (key : A -> Z) (x : A) (rest : list A) :
  exists m, py_max_key key (x :: rest) = Ok m
            /\ In m (x :: rest)
            /\ forall y, In y (x :: rest) -> key y <= key m.
Proof.
  unfold py_max_key.
  eexists; split; [reflexivity|].
  revert x. induction rest as [|z rest IH]; intros x; simpl.
  - split; [auto|]. intros y [->|[]]. lia.
  - specialize (IH (if key x <? key z then z else x)).
    destruct IH as [Hin Hmax]. split.
    + destruct Hin as [Heq | Hin]; [|auto].
      rewrite <- Heq. destruct (key x <? key z); auto.
    + intros y Hy.
      assert (Hxz : key x <= key (if key x <? key z then z else x)
                    /\ key z <= key (if key x <? key z then z else x)).
      { destruct (Z.ltb_spec (key x) (key z)); lia. }
      destruct Hy as [->|[->|Hy]].
      * etransitivity; [apply Hxz|]. apply Hmax. left; reflexivity.
      * etransitivity; [apply Hxz|]. apply Hmax. left; reflexivity.
      * apply Hmax. right; assumption.
Qed.

Lemma filter_length_pos (A : Type) (f : A -> bool) (l : list A) :
  (0 < length (filter f l))%nat <-> exists x, In x l /\ f x = true.
Proof.
  split.
  - destruct (filter f l) as [|x r] eqn:E; simpl; [lia|]. intros _.
    exists x. apply filter_In. rewrite E. left; reflexivity.
  - intros [x Hx]. apply filter_In in Hx.
    destruct (filter f l); [contradiction | simpl; lia].
Qed.

Lemma pair_occurrences_nonneg (s : list token) (p : pair_t) :
  0 <= pair_occurrences s p.
Proof. unfold pair_occurrences; lia. Qed.

Lemma pair_occurrences_pos (s : list token) (p : pair_t) :
  0 < pair_occurrences s p <-> occurs_adjacent p s.
Proof.
  unfold pair_occurrences, occurs_adjacent, occurs_at.
  rewrite <- Nat2Z.inj_0, <- Nat2Z.inj_lt, filter_length_pos.
  split.
  - intros [i [Hin Hp]]. apply in_seq in Hin. apply pair_eqb_eq in Hp.
    exists i. split; [lia | assumption].
  - intros [i [Hlt Hp]]. exists i. split.
    + apply in_seq. lia.
    + apply pair_eqb_eq. assumption.
Qed.

Lemma frequency_key (s : list token) (p : pair_t) :
  dict_get_default pair_eqb (get_byte_pair_frequency s) p 0
  = pair_occurrences s p.
Proof.
  unfold dict_get_default. rewrite frequency_get.
  destruct (Z.eqb_spec (pair_occurrences s p) 0); congruence.
Qed.

Lemma frequency_keys (s : list token) (p : pair_t) :
  In p (dict_keys (get_byte_pair_frequency s)) <-> occurs_adjacent p s.
Proof.
  rewrite <- pair_occurrences_pos.
  pose proof (pair_occurrences_nonneg s p) as Hn.
  pose proof (@dict_get_None _ _ _ pair_eqb_spec
                (get_byte_pair_frequency s) p) as Hnone.
  rewrite frequency_get in Hnone.
  destruct (Z.eqb_spec (pair_occurrences s p) 0) as [E|E].
  - split; [|lia]. intros Hin. exfalso. apply Hnone; auto.
  - split; [lia|]. intros _.
    destruct (in_dec (fun a b => reflect_dec _ _ (pair_eqb_spec a b))
                     p (dict_keys (get_byte_pair_frequency s)))
      as [Hin|Hnin]; [assumption|].
    apply Hnone in Hnin. discriminate.
Qed.

Lemma frequency_empty (s : list token) :
  get_byte_pair_frequency s = [] <-> (length s < 2)%nat.
Proof.
  split.
  - intros E. destruct (lt_dec (length s) 2) as [?|Hge]; [assumption|].
    exfalso.
    assert (Hocc : occurs_adjacent (pairs_at s 0) s).
    { exists O. split; [lia | reflexivity]. }
    apply frequency_keys in Hocc. rewrite E in Hocc. exact Hocc.
  - intros Hlt. destruct s as [|x [|y s]]; simpl in Hlt; try lia; reflexivity.
Qed.

Lemma bpe_iteration_cases (st : train_state) :
  ((length (byte_text st) < 2)%nat /\ bpe_iteration st = Ok None)
  \/ ((2 <= length (byte_text st))%nat
      /\ exists p,
           occurs_adjacent p (byte_text st)
           /\ (forall q, pair_occurrences (byte_text st) q
                         <= pair_occurrences (byte_text st) p)
           /\ bpe_iteration st = Ok (Some (merged_state st p))).
Proof.
  unfold bpe_iteration.
  destruct (get_byte_pair_frequency (byte_text st)) as [|e l] eqn:Hf.
  - left. split; [apply frequency_empty; assumption | reflexivity].
  - right. split.
    { destruct (lt_dec (length (byte_text st)) 2) as [Hlt|]; [|lia].
      apply frequency_empty in Hlt. congruence. }
    destruct (py_max_key_spec
                (fun k => dict_get_default pair_eqb (e :: l) k 0)
                (fst e) (map fst l)) as [p [Hmax [Hin Hle]]].
    unfold dict_keys; simpl map. rewrite Hmax. simpl bind.
    change (fst e :: map fst l) with (dict_keys (e :: l)) in Hin, Hle.
    rewrite <- Hf in Hin, Hle.
    exists p.
    assert (Hocc : occurs_adjacent p (byte_text st)).
    { apply frequency_keys. exact Hin. }
    split; [exact Hocc|]. split.
    + intros q. rewrite <- !frequency_key.
      destruct (Z.eqb_spec (pair_occurrences (byte_text st) q) 0) as [E|E].
      * rewrite (frequency_key _ q), E, frequency_key.
        apply pair_occurrences_nonneg.
      * apply Hle. apply frequency_keys. apply pair_occurrences_pos.
        pose proof (pair_occurrences_nonneg (byte_text st) q). lia.
    + unfold merged_state, dict_contains, dict_subscript.
      destruct (dict_get pair_eqb (merge_map st) p) as [id|] eqn:Hg; simpl.
      * rewrite Hg. reflexivity.
      * rewrite (@dict_get_set _ _ _ pair_eqb_spec), pair_eqb_refl.
        simpl. rewrite (@dict_set_fresh _ _ pair_eqb) by assumption.
        reflexivity.
Qed.
(** C5. Learner selection and id allocation: in every iteration that finds
    a pair (the working sequence has at least two elements), the selected
    pair is an adjacent pair of the current sequence whose frequency is
    maximal among all pairs; when it already has an id in the merge map,
    that id is reused and map and counter are unchanged; otherwise the pair
    is recorded (last in insertion order) with the current fresh id and the
    counter is incremented by one.  The sequence is rewritten with the
    pair's id. *)
Theorem learner_selection (st : train_state) :
  (2 <= length (byte_text st))%nat ->
  exists p st',
    bpe_iteration st = Ok (Some st')
    /\ occurs_adjacent p (byte_text st)
    /\ (forall q, pair_occurrences (byte_text st) q
                  <= pair_occurrences (byte_text st) p)
    /\ match dict_get pair_eqb (merge_map st) p with
       | Some id =>
           merge_map st' = merge_map st
           /\ token_id st' = token_id st
           /\ byte_text st' = merge_byte_pair (byte_text st) p id
       | None =>
           merge_map st' = merge_map st ++ [(p, token_id st)]
           /\ token_id st' = token_id st + 1
           /\ byte_text st' = merge_byte_pair (byte_text st) p (token_id st)
       end.
Proof.
  intros Hlen.
  destruct (bpe_iteration_cases st) as [[Hlt _] | [_ [p [Hocc [Hmax Hit]]]]];
    [lia|].
  exists p, (merged_state st p). repeat split; try assumption.
  unfold merged_state.
  destruct (dict_get pair_eqb (merge_map st) p); repeat split.
Qed.

Lemma learner_selection_witness :
  let st := mk_state [97; 98; 97; 98] 99 [] in
  (2 <= length (byte_text st))%nat
  /\ exists p st',
       bpe_iteration st = Ok (Some st')
       /\ occurs_adjacent p (byte_text st)
       /\ (forall q, pair_occurrences (byte_text st) q
                     <= pair_occurrences (byte_text st) p)
       /\ match dict_get pair_eqb (merge_map st) p with
          | Some id =>
              merge_map st' = merge_map st
              /\ token_id st' = token_id st
              /\ byte_text st' = merge_byte_pair (byte_text st) p id
          | None =>
              merge_map st' = merge_map st ++ [(p, token_id st)]
              /\ token_id st' = token_id st + 1
              /\ byte_text st' = merge_byte_pair (byte_text st) p (token_id st)
          end.
Proof.
  split; [simpl; lia | apply learner_selection; simpl; lia].
Defined.

(** ** Length of the merged sequence *)

Lemma list_ind_two (A : Type) (P : list A -> Prop) :
  P [] -> (forall x, P [x]) ->
  (forall x y rest, P rest -> P (y :: rest) -> P (x :: y :: rest)) ->
  forall l, P l.
Proof.
  intros H0 H1 H2 l.
  enough (H : P l /\ forall x, P (x :: l)) by apply H.
  induction l as [|y l [IH IHc]]; split; auto.
Qed.

Lemma occurs_at_head (pr : pair_t) (x y : token) (rest : list token) :
  occurs_at pr (x :: y :: rest) 0 <-> (x, y) = pr.
Proof.
  unfold occurs_at; simpl. split; [tauto|]. intros H; split; [lia | exact H].
Qed.

Lemma occurs_at_tail (pr : pair_t) (x : token) (tl : list token) (i : nat) :
  occurs_at pr (x :: tl) (S i) <-> occurs_at pr tl i.
Proof. unfold occurs_at; simpl. split; intros [H1 H2]; (split; [lia | exact H2]). Qed.

Lemma apply_rule_step (x y : token) (rest : list token) (pr : pair_t)
    (new_id : token) :
  apply_rule (x :: y :: rest) pr new_id
  = if pair_eqb (x, y) pr then new_id :: apply_rule rest pr new_id
    else x :: apply_rule (y :: rest) pr new_id.
Proof. reflexivity. Qed.

Lemma nonoverlapping_step (x y : token) (rest : list token) (pr : pair_t) :
  nonoverlapping_occurrences (x :: y :: rest) pr
  = if pair_eqb (x, y) pr then S (nonoverlapping_occurrences rest pr)
    else nonoverlapping_occurrences (y :: rest) pr.
Proof. reflexivity. Qed.

Lemma apply_rule_length (s : list token) (pr : pair_t) (new_id : token) :
  (length (apply_rule s pr new_id) + nonoverlapping_occurrences s pr
   = length s)%nat.
Proof.
  induction s as [| x | x y rest IH1 IH2] using list_ind_two;
    try reflexivity.
  rewrite apply_rule_step, nonoverlapping_step.
  destruct (pair_eqb (x, y) pr); cbn [length] in *; lia.
Qed.

Lemma nonoverlapping_zero (s : list token) (pr : pair_t) :
  nonoverlapping_occurrences s pr = O -> ~ occurs_adjacent pr s.
Proof.
  induction s as [| x | x y rest IH1 IH2] using list_ind_two;
    intros Hz [i Hi].
  - destruct Hi as [Hlt _]; simpl in Hlt; lia.
  - destruct Hi as [Hlt _]; simpl in Hlt; lia.
  - rewrite nonoverlapping_step in Hz.
    destruct (pair_eqb_spec (x, y) pr) as [E|E]; [discriminate|].
    destruct i as [|i].
    + apply occurs_at_head in Hi. contradiction.
    + apply occurs_at_tail in Hi. apply (IH2 Hz). exists i. exact Hi.
Qed.

Lemma apply_rule_absent (s : list token) (pr : pair_t) (new_id : token) :
  ~ occurs_adjacent pr s -> apply_rule s pr new_id = s.
Proof.
  induction s as [| x | x y rest IH1 IH2] using list_ind_two;
    intros Hno; try reflexivity.
  rewrite apply_rule_step.
  destruct (pair_eqb_spec (x, y) pr) as [E|E].
  - exfalso. apply Hno. exists O. apply occurs_at_head. exact E.
  - f_equal. apply IH2. intros [i Hi]. apply Hno. exists (S i).
    apply occurs_at_tail. exact Hi.
Qed.

Lemma bpe_iteration_shortens (st st' : train_state) :
  bpe_iteration st = Ok (Some st') ->
  (length (byte_text st') < length (byte_text st))%nat.
Proof.
  intros Hit.
  destruct (bpe_iteration_cases st) as [[_ Hb] | [_ [p [Hocc [_ Hs]]]]];
    [congruence|].
  rewrite Hs in Hit. injection Hit as <-.
  assert (Hpos : (0 < nonoverlapping_occurrences (byte_text st) p)%nat).
  { destruct (nonoverlapping_occurrences (byte_text st) p) eqn:E; [|lia].
    exfalso. exact (nonoverlapping_zero E Hocc). }
  unfold merged_state.
  destruct (dict_get pair_eqb (merge_map st) p) as [id|]; simpl;
    rewrite merge_byte_pair_rule.
  - pose proof (apply_rule_length (byte_text st) p id). lia.
  - pose proof (apply_rule_length (byte_text st) p (token_id st)). lia.
Qed.

(** C10. Applier identity and progress: when the pair occurs at no adjacent
    position, [merge_byte_pair] returns its input; when it occurs at least
    once, the result is strictly shorter; in every case the result is
    shorter than the input by exactly the number of non-overlapping
    left-to-right occurrences; and every executed training iteration
    strictly shortens the working sequence. *)
Theorem merge_byte_pair_progress (s : list token) (pr : pair_t)
    (new_token : token) :
  (~ occurs_adjacent pr s -> merge_byte_pair s pr new_token = s)
  /\ (occurs_adjacent pr s ->
      (length (merge_byte_pair s pr new_token) < length s)%nat)
  /\ (length (merge_byte_pair s pr new_token)
      = length s - nonoverlapping_occurrences s pr)%nat
  /\ (forall st st',
        bpe_iteration st = Ok (Some st') ->
        (length (byte_text st') < length (byte_text st))%nat).
Proof.
  rewrite merge_byte_pair_rule.
  pose proof (apply_rule_length s pr new_token) as Hlen.
  repeat split.
  - apply apply_rule_absent.
  - intros Hocc.
    destruct (nonoverlapping_occurrences s pr) eqn:E; [|lia].
    exfalso. exact (nonoverlapping_zero E Hocc).
  - lia.
  - apply bpe_iteration_shortens.
Qed.

Lemma merge_byte_pair_progress_witness :
  (length (merge_byte_pair [7; 7; 7]%Z (7, 7)%Z 300%Z) < 3)%nat
  /\ merge_byte_pair [7; 8; 7] (7, 7) 300 = [7; 8; 7].
Proof.
  split.
  - apply (merge_byte_pair_progress [7; 7; 7] (7, 7) 300).
    exists O. split; [simpl; lia | reflexivity].
  - apply (merge_byte_pair_progress [7; 8; 7] (7, 7) 300).
    intros [i [Hlt Hp]]. simpl in Hlt.
    destruct i as [|[|i]]; simpl in Hp; try discriminate; lia.
Defined.
(** ** The training loop *)

Lemma bpe_loop_S (n : nat) (st : train_state) :
  bpe_loop (S n) st
  = (r <- bpe_iteration st ;;
     match r with
     | None => Ok st
     | Some st' => bpe_loop n st'
     end).
Proof. reflexivity. Qed.

Lemma bpe_loop_exhausted (n : nat) (st : train_state) :
  (length (byte_text st) <= 1)%nat -> bpe_loop n st = Ok st.
Proof.
  intros Hlen. destruct n as [|n]; [reflexivity|].
  rewrite bpe_loop_S.
  destruct (bpe_iteration_cases st) as [[_ Hb] | [Hge _]]; [|lia].
  rewrite Hb. reflexivity.
Qed.

Lemma merged_state_map_length (st : train_state) (p : pair_t) :
  (length (merge_map (merged_state st p)) <= length (merge_map st) + 1)%nat.
Proof.
  unfold merged_state.
  destruct (dict_get pair_eqb (merge_map st) p); simpl;
    rewrite ?length_app; simpl; lia.
Qed.

Lemma bpe_loop_total (n : nat) (st : train_state) :
  exists st', bpe_loop n st = Ok st'
              /\ (length (merge_map st') <= length (merge_map st) + n)%nat.
Proof.
  revert st; induction n as [|n IH]; intros st.
  - exists st. split; [reflexivity | lia].
  - rewrite bpe_loop_S.
    destruct (bpe_iteration_cases st) as [[_ Hb] | [_ [p [_ [_ Hs]]]]].
    + rewrite Hb. exists st. split; [reflexivity | lia].
    + rewrite Hs. simpl bind.
      destruct (IH (merged_state st p)) as [st' [Hl Hlen]].
      exists st'. split; [exact Hl|].
      pose proof (merged_state_map_length st p). lia.
Qed.

Lemma bpe_iteration_two (a b tid : token) :
  bpe_iteration (mk_state [a; b] tid [])
  = Ok (Some (mk_state [tid] (tid + 1) [((a, b), tid)])).
Proof.
  destruct (bpe_iteration_cases (mk_state [a; b] tid []))
    as [[Hlt _] | [_ [p [[i [Hi Hp]] [_ Hs]]]]]; [simpl in Hlt; lia|].
  simpl in Hi, Hp. assert (i = O) by lia. subst i. simpl in Hp. subst p.
  rewrite Hs. unfold merged_state. simpl.
  rewrite merge_byte_pair_rule. simpl. rewrite pair_eqb_refl. reflexivity.
Qed.

Lemma bpe_loop_two (n : nat) (a b tid : token) :
  bpe_loop (S n) (mk_state [a; b] tid [])
  = Ok (mk_state [tid] (tid + 1) [((a, b), tid)]).
Proof.
  rewrite bpe_loop_S, bpe_iteration_two. simpl bind.
  apply bpe_loop_exhausted. simpl. lia.
Qed.

Lemma byte_pair_encoding_two (texts : list str) (a b : token) :
  join_corpus texts = Ok [a; b] ->
  exists enc mm, byte_pair_encoding texts 1000 = Ok (enc, mm)
                 /\ (length mm <= 1)%nat.
Proof.
  intros Hj. unfold byte_pair_encoding. rewrite Hj.
  cbn [bind py_max fold_left].
  change (Z.to_nat 1000) with (S 999). rewrite bpe_loop_two.
  cbn [bind byte_text merge_map].
  eexists _, _. split; [reflexivity | simpl; lia].
Qed.

(** C7. Exhausted-pairs termination: whenever the working sequence has at
    most one element the loop stops at once and returns normally, whatever
    number of iterations was requested; the loop never raises and performs at
    most one merge per iteration, so the merge map may hold fewer entries
    than [num_merges]; training a 2-element sequence with 1000 requested
    merges performs exactly one merge and returns normally, also through
    [byte_pair_encoding]. *)
Theorem exhausted_pairs_termination :
  (forall n st,
     (length (byte_text st) <= 1)%nat -> bpe_loop n st = Ok st)
  /\ (forall n st,
        exists st',
          bpe_loop n st = Ok st'
          /\ (length (merge_map st') <= length (merge_map st) + n)%nat)
  /\ (forall a b tid,
        bpe_loop 1000 (mk_state [a; b] tid [])
        = Ok (mk_state [tid] (tid + 1) [((a, b), tid)]))
  /\ (forall texts a b,
        join_corpus texts = Ok [a; b] ->
        exists enc mm,
          byte_pair_encoding texts 1000 = Ok (enc, mm)
          /\ (length mm <= 1)%nat).
Proof.
  split; [exact bpe_loop_exhausted|].
  split; [exact bpe_loop_total|].
  split; [intros; apply bpe_loop_two|].
  exact byte_pair_encoding_two.
Qed.

Lemma exhausted_pairs_termination_witness :
  bpe_loop 1000 (mk_state [97] 98 []) = Ok (mk_state [97] 98 [])
  /\ exists enc mm,
       byte_pair_encoding [[97; 98]] 1000 = Ok (enc, mm)
       /\ (length mm <= 1)%nat.
Proof.
  split.
  - apply exhausted_pairs_termination. simpl. lia.
  - apply exhausted_pairs_termination with (a := 97) (b := 98). reflexivity.
Defined.
(** ** Invariant of the training loop *)

Lemma apply_rule_In (s : list token) (pr : pair_t) (new_id t : token) :
  In t (apply_rule s pr new_id) -> In t s \/ t = new_id.
Proof.
  induction s as [| x | x y rest IH1 IH2] using list_ind_two;
    try (simpl; tauto).
  rewrite apply_rule_step.
  destruct (pair_eqb (x, y) pr); intros [E | Hin].
  - right; congruence.
  - destruct (IH1 Hin); [left; simpl; tauto | right; assumption].
  - left; left; assumption.
  - destruct (IH2 Hin); [left; right; assumption | right; assumption].
Qed.

Lemma occurs_adjacent_In (a b : token) (s : list token) :
  occurs_adjacent (a, b) s -> In a s /\ In b s.
Proof.
  intros [i [Hlt Hp]]. injection Hp as <- <-.
  split; apply nth_In; lia.
Qed.

Lemma StronglySorted_snoc (l : list Z) (v : Z) :
  StronglySorted Z.lt l -> (forall x, In x l -> x < v) ->
  StronglySorted Z.lt (l ++ [v]).
Proof.
  induction l as [|x l IH]; intros Hs Hlt; simpl.
  - constructor; constructor.
  - inversion Hs as [|? ? Hs' Hall]; subst. constructor.
    + apply IH; [assumption | intros; apply Hlt; right; assumption].
    + apply Forall_app. split; [assumption|].
      constructor; [apply Hlt; left; reflexivity | constructor].
Qed.

Lemma train_inv_merged (m0 : Z) (st : train_state) (p : pair_t) :
  train_inv m0 st -> m0 < token_id st ->
  occurs_adjacent p (byte_text st) ->
  train_inv m0 (merged_state st p).
Proof.
  intros (Hseq & Hmap & Hnd & Hsort) Hm0 Hocc.
  destruct p as [a b].
  destruct (occurs_adjacent_In Hocc) as [Ha Hb].
  apply Hseq in Ha, Hb.
  unfold merged_state.
  destruct (dict_get pair_eqb (merge_map st) (a, b)) as [id|] eqn:Hg.
  - apply (@dict_get_In _ _ _ pair_eqb_spec) in Hg.
    destruct (Hmap _ _ _ Hg) as (_ & _ & _ & Hid).
    split; [|split; [|split]]; simpl; try assumption.
    intros t Ht. rewrite merge_byte_pair_rule in Ht.
    apply apply_rule_In in Ht. destruct Ht as [Ht | ->]; auto.
  - split; [|split; [|split]]; simpl.
    + intros t Ht. rewrite merge_byte_pair_rule in Ht.
      apply apply_rule_In in Ht. destruct Ht as [Ht | ->]; [|lia].
      apply Hseq in Ht. lia.
    + intros a' b' id H.
      apply in_app_or in H. destruct H as [H | [H | []]].
      * apply Hmap in H. lia.
      * injection H as <- <- <-. lia.
    + rewrite <- (@dict_set_fresh _ _ pair_eqb) by exact Hg.
      apply (@dict_set_NoDup _ _ _ pair_eqb_spec). assumption.
    + unfold dict_values. rewrite map_app. simpl.
      apply StronglySorted_snoc; [assumption|].
      intros x Hx. apply in_map_iff in Hx. destruct Hx as [[[a' b'] id] [E Hin]].
      simpl in E. subst x. apply Hmap in Hin. lia.
Qed.

Lemma merged_state_extends (st : train_state) (p : pair_t) :
  exists more, merge_map (merged_state st p) = merge_map st ++ more.
Proof.
  unfold merged_state.
  destruct (dict_get pair_eqb (merge_map st) p); simpl.
  - exists []. rewrite app_nil_r. reflexivity.
  - eexists. reflexivity.
Qed.

Lemma merged_state_counter (st : train_state) (p : pair_t) :
  token_id st <= token_id (merged_state st p).
Proof.
  unfold merged_state.
  destruct (dict_get pair_eqb (merge_map st) p); simpl; lia.
Qed.

Lemma bpe_loop_inv (m0 : Z) (n : nat) (st st' : train_state) :
  train_inv m0 st -> m0 < token_id st ->
  bpe_loop n st = Ok st' -> train_inv m0 st'.
Proof.
  revert st; induction n as [|n IH]; intros st Hinv Hm0.
  - simpl. intros H; injection H as <-. assumption.
  - rewrite bpe_loop_S.
    destruct (bpe_iteration_cases st) as [[_ Hb] | [_ [p [Hocc [_ Hs]]]]].
    + rewrite Hb. simpl. intros H; injection H as <-. assumption.
    + rewrite Hs. simpl bind. apply IH.
      * apply train_inv_merged; assumption.
      * pose proof (merged_state_counter st p). lia.
Qed.

Lemma bpe_loop_extends (n : nat) (st st' : train_state) :
  bpe_loop n st = Ok st' ->
  exists more, merge_map st' = merge_map st ++ more.
Proof.
  revert st; induction n as [|n IH]; intros st.
  - simpl. intros H; injection H as <-. exists []. rewrite app_nil_r.
    reflexivity.
  - rewrite bpe_loop_S.
    destruct (bpe_iteration_cases st) as [[_ Hb] | [_ [p [_ [_ Hs]]]]].
    + rewrite Hb. simpl. intros H; injection H as <-. exists [].
      rewrite app_nil_r. reflexivity.
    + rewrite Hs. simpl bind. intros H. apply IH in H.
      destruct H as [more Hmore].
      destruct (merged_state_extends st p) as [more0 Hmore0].
      exists (more0 ++ more). rewrite Hmore, Hmore0, app_assoc. reflexivity.
Qed.

Lemma bpe_loop_prefix (k j : nat) (st st1 st2 : train_state) :
  bpe_loop k st = Ok st1 -> bpe_loop (k + j) st = Ok st2 ->
  exists more, merge_map st2 = merge_map st1 ++ more.
Proof.
  revert st; induction k as [|k IH]; intros st.
  - simpl. intros H; injection H as <-. apply bpe_loop_extends.
  - change (S k + j)%nat with (S (k + j)). rewrite !bpe_loop_S.
    destruct (bpe_iteration_cases st) as [[_ Hb] | [_ [p [_ [_ Hs]]]]].
    + rewrite Hb. simpl. intros H1 H2. injection H1 as <-. injection H2 as <-.
      exists []. rewrite app_nil_r. reflexivity.
    + rewrite Hs. simpl bind. apply IH.
Qed.

Lemma py_max_spec (l : list Z) (m : Z) :
  py_max l = Ok m -> In m l /\ forall x, In x l -> x <= m.
Proof.
  destruct l as [|x rest]; [discriminate|].
  destruct (py_max_key_spec (fun z => z) x rest) as [m' [Hm Hspec]].
  change (py_max_key (fun z => z) (x :: rest)) with (py_max (x :: rest)) in Hm.
  rewrite Hm. intros H; injection H as <-. exact Hspec.
Qed.

Lemma train_inv_init (corpus : list token) (m : Z) :
  py_max corpus = Ok m -> train_inv m (mk_state corpus (m + 1) []).
Proof.
  intros Hm. apply py_max_spec in Hm. destruct Hm as [_ Hmax].
  repeat split; simpl; try contradiction; try constructor.
  intros t Ht. apply Hmax in Ht. lia.
Qed.

(** C2 (as amended). Merge-map invariant: after any training run the keys
    of the merge map are pairwise distinct; its values increase strictly in
    insertion order (each id is greater than every id assigned before it);
    each value is greater than every raw byte value that occurs in the
    joined corpus (the first id being [max(byte_text) + 1], not 256); and
    the map never loses an entry: the map of a run with fewer iterations is
    an initial segment of the map of a run with more. *)
Theorem merge_map_invariant (texts : list str) (num_merges : Z)
    (enc : list token) (mm : dict pair_t token) :
  byte_pair_encoding texts num_merges = Ok (enc, mm) ->
  NoDup (dict_keys mm)
  /\ StronglySorted Z.lt (dict_values mm)
  /\ (exists corpus,
        join_corpus texts = Ok corpus
        /\ forall a b id x,
             In ((a, b), id) mm -> In x corpus -> x < id)
  /\ (forall k,
        k <= num_merges ->
        exists enc_k mm_k more,
          byte_pair_encoding texts k = Ok (enc_k, mm_k)
          /\ mm = mm_k ++ more).
Proof.
  unfold byte_pair_encoding.
  destruct (join_corpus texts) as [corpus|e] eqn:Hj; [|discriminate].
  simpl bind.
  destruct (py_max corpus) as [m|e] eqn:Hm; [|discriminate]. simpl bind.
  destruct (bpe_loop (Z.to_nat num_merges) (mk_state corpus (m + 1) []))
    as [st|e] eqn:Hl; [|discriminate].
  simpl bind. intros H; injection H as <- <-.
  pose proof (train_inv_init corpus Hm) as Hinit.
  assert (Hinv : train_inv m st).
  { eapply bpe_loop_inv; [exact Hinit | simpl; lia | exact Hl]. }
  destruct Hinv as (_ & Hmap & Hnd & Hsort).
  split; [exact Hnd|]. split; [exact Hsort|]. split.
  - exists corpus. split; [reflexivity|].
    intros a b id x Hin Hx. apply Hmap in Hin.
    apply py_max_spec in Hm. destruct Hm as [_ Hmax]. apply Hmax in Hx. lia.
  - intros k Hk.
    destruct (bpe_loop_total (Z.to_nat k) (mk_state corpus (m + 1) []))
      as [stk [Hlk _]].
    rewrite Hlk. simpl bind.
    replace (Z.to_nat num_merges)
      with (Z.to_nat k + (Z.to_nat num_merges - Z.to_nat k))%nat in Hl by lia.
    destruct (bpe_loop_prefix _ _ _ Hlk Hl) as [more Hmore].
    exists (byte_text stk), (merge_map stk), more. split; [reflexivity|].
    exact Hmore.
Qed.

Lemma merge_map_invariant_witness :
  let texts := [[97; 98]; [97; 98]] in
  let enc := [101; 69; 80; 93; 99] in
  let mm := [((97, 98), 99); ((99, 91), 100); ((100, 83), 101)] in
  byte_pair_encoding texts 3 = Ok (enc, mm)
  /\ NoDup (dict_keys mm)
  /\ StronglySorted Z.lt (dict_values mm)
  /\ (exists corpus,
        join_corpus texts = Ok corpus
        /\ forall a b id x,
             In ((a, b), id) mm -> In x corpus -> x < id)
  /\ (forall k,
        k <= 3 ->
        exists enc_k mm_k more,
          byte_pair_encoding texts k = Ok (enc_k, mm_k)
          /\ mm = mm_k ++ more).
Proof.
  split; [reflexivity|].
  apply (@merge_map_invariant [[97; 98]; [97; 98]] 3 [101; 69; 80; 93; 99]
           [((97, 98), 99); ((99, 91), 100); ((100, 83), 101)]).
  reflexivity.
Defined.
(** The ids start right above the largest byte of the corpus, so they need
    not be above every byte value: training on ["ab"] records the id 99. *)
Lemma merge_id_within_byte_range :
  byte_pair_encoding [[97; 98]] 1 = Ok ([99], [((97, 98), 99)])
  /\ ~ (forall id raw,
          In id (dict_values [((97, 98), 99)]) -> 0 <= raw <= 255 -> raw < id).
Proof.
  split; [reflexivity|].
  intros H. specialize (H 99 200 (or_introl eq_refl)). lia.
Qed.

(** ** UTF-8 *)

(** *** Bit operations as arithmetic *)

Lemma lor_low (a y n : Z) :
  0 <= n -> 0 <= y < 2 ^ n -> a mod 2 ^ n = 0 -> Z.lor a y = a + y.
Proof.
  intros Hn Hy Ha.
  assert (Hland : Z.land a y = 0).
  { apply Z.bits_inj'. intros k Hk.
    rewrite Z.land_spec, Z.bits_0.
    destruct (Z.lt_ge_cases k n) as [Hlt | Hge].
    - rewrite (Z.div_mod a (2 ^ n)) by lia.
      rewrite Ha, Z.add_0_r, Z.mul_comm, Z.mul_pow2_bits_low by lia.
      reflexivity.
    - rewrite <- (Z.mod_small y (2 ^ n)) by lia.
      rewrite Z.mod_pow2_bits_high by lia. apply andb_false_r. }
  rewrite <- Z.lxor_lor by assumption.
  symmetry. apply Z.add_nocarry_lxor. assumption.
Qed.

Lemma land_low (a n : Z) : 0 <= n -> Z.land a (2 ^ n - 1) = a mod 2 ^ n.
Proof.
  intros Hn. rewrite <- Z.land_ones by assumption.
  rewrite Z.ones_equiv. reflexivity.
Qed.

Lemma land_63 a : Z.land a 63 = a mod 64.
Proof. apply (@land_low a 6). lia. Qed.
Lemma land_31 a : Z.land a 31 = a mod 32.
Proof. apply (@land_low a 5). lia. Qed.
Lemma land_15 a : Z.land a 15 = a mod 16.
Proof. apply (@land_low a 4). lia. Qed.
Lemma land_7 a : Z.land a 7 = a mod 8.
Proof. apply (@land_low a 3). lia. Qed.

Lemma shiftr_6 a : Z.shiftr a 6 = a / 64.
Proof. apply (Z.shiftr_div_pow2 a 6). lia. Qed.
Lemma shiftr_12 a : Z.shiftr a 12 = a / 4096.
Proof. apply (Z.shiftr_div_pow2 a 12). lia. Qed.
Lemma shiftr_18 a : Z.shiftr a 18 = a / 262144.
Proof. apply (Z.shiftr_div_pow2 a 18). lia. Qed.
Lemma shiftl_6 a : Z.shiftl a 6 = a * 64.
Proof. apply (Z.shiftl_mul_pow2 a 6). lia. Qed.
Lemma shiftl_12 a : Z.shiftl a 12 = a * 4096.
Proof. apply (Z.shiftl_mul_pow2 a 12). lia. Qed.
Lemma shiftl_18 a : Z.shiftl a 18 = a * 262144.
Proof. apply (Z.shiftl_mul_pow2 a 18). lia. Qed.

Lemma lor_cont (x : Z) : 0 <= x < 64 -> Z.lor 128 x = 128 + x.
Proof. intros H. apply (@lor_low 128 x 6); [lia | lia | reflexivity]. Qed.
Lemma lor_lead2 (x : Z) : 0 <= x < 32 -> Z.lor 192 x = 192 + x.
Proof. intros H. apply (@lor_low 192 x 5); [lia | lia | reflexivity]. Qed.
Lemma lor_lead3 (x : Z) : 0 <= x < 16 -> Z.lor 224 x = 224 + x.
Proof. intros H. apply (@lor_low 224 x 4); [lia | lia | reflexivity]. Qed.
Lemma lor_lead4 (x : Z) : 0 <= x < 8 -> Z.lor 240 x = 240 + x.
Proof. intros H. apply (@lor_low 240 x 3); [lia | lia | reflexivity]. Qed.

Lemma lor_payload (hi lo : Z) :
  0 <= lo < 64 -> Z.lor (hi * 64) lo = hi * 64 + lo.
Proof.
  intros H. apply (@lor_low (hi * 64) lo 6); [lia | lia |].
  change (2 ^ 6) with 64. apply Z.mod_mul. lia.
Qed.

Lemma in_range_iff (lo hi b : Z) : in_range lo hi b = true <-> lo <= b <= hi.
Proof. unfold in_range. rewrite andb_true_iff, !Z.leb_le. tauto. Qed.

Lemma in_range_false (lo hi b : Z) :
  in_range lo hi b = false <-> b < lo \/ hi < b.
Proof.
  unfold in_range. rewrite andb_false_iff, !Z.leb_gt. tauto.
Qed.
Ltac divmod := Z.div_mod_to_equations; lia.

Lemma Ok_inj (A : Type) (a b : A) : Ok a = Ok b -> a = b.
Proof. congruence. Qed.


Lemma cont_byte (x : Z) : Z.lor 0x80 (Z.land x 0x3F) = 128 + x mod 64.
Proof. rewrite land_63. apply lor_cont. divmod. Qed.

Lemma decode2_value (b0 b1 : Z) :
  Z.lor (Z.shiftl (Z.land b0 0x1F) 6) (Z.land b1 0x3F)
  = (b0 mod 32) * 64 + b1 mod 64.
Proof.
  rewrite land_31, land_63, shiftl_6. apply lor_payload. divmod.
Qed.

Lemma decode3_value (b0 b1 b2 : Z) :
  Z.lor (Z.lor (Z.shiftl (Z.land b0 0x0F) 12) (Z.shiftl (Z.land b1 0x3F) 6))
        (Z.land b2 0x3F)
  = (b0 mod 16) * 4096 + (b1 mod 64) * 64 + b2 mod 64.
Proof.
  rewrite land_15, !land_63, shiftl_6, shiftl_12.
  rewrite (@lor_low (b0 mod 16 * 4096) (b1 mod 64 * 64) 12);
    [| lia | change (2 ^ 12) with 4096; divmod
     | change (2 ^ 12) with 4096; divmod].
  apply (@lor_low _ _ 6); [lia | | ]; change (2 ^ 6) with 64; divmod.
Qed.

Lemma decode4_value (b0 b1 b2 b3 : Z) :
  Z.lor (Z.lor (Z.lor (Z.shiftl (Z.land b0 0x07) 18)
                      (Z.shiftl (Z.land b1 0x3F) 12))
               (Z.shiftl (Z.land b2 0x3F) 6))
        (Z.land b3 0x3F)
  = (b0 mod 8) * 262144 + (b1 mod 64) * 4096 + (b2 mod 64) * 64 + b3 mod 64.
Proof.
  rewrite land_7, !land_63, shiftl_6, shiftl_12, shiftl_18.
  rewrite (@lor_low (b0 mod 8 * 262144) (b1 mod 64 * 4096) 18);
    [| lia | change (2 ^ 18) with 262144; divmod
     | change (2 ^ 18) with 262144; divmod].
  rewrite (@lor_low _ (b2 mod 64 * 64) 12);
    [| lia | change (2 ^ 12) with 4096; divmod
     | change (2 ^ 12) with 4096; divmod].
  apply (@lor_low _ _ 6); [lia | | ]; change (2 ^ 6) with 64; divmod.
Qed.

(** The bytes the encoder produces, by case. *)
Lemma utf8_encode_char_cases (c : Z) (bs : list Z) :
  utf8_encode_char c = Ok bs ->
  (0 <= c < 0x80 /\ bs = [c])
  \/ (0x80 <= c < 0x800 /\ bs = [192 + c / 64; 128 + c mod 64])
  \/ (0x800 <= c < 0x10000 /\ ~ (0xD800 <= c <= 0xDFFF)
      /\ bs = [224 + c / 4096; 128 + (c / 64) mod 64; 128 + c mod 64])
  \/ (0x10000 <= c < 0x110000
      /\ bs = [240 + c / 262144; 128 + (c / 4096) mod 64;
               128 + (c / 64) mod 64; 128 + c mod 64]).
Proof.
  unfold utf8_encode_char, is_surrogate.
  destruct (Z.ltb_spec c 0); [discriminate|].
  destruct (Z.ltb_spec c 0x80).
  { intros E; apply Ok_inj in E; subst bs. left. split; [lia | reflexivity]. }
  destruct (Z.ltb_spec c 0x800).
  { intros E; apply Ok_inj in E; subst bs. right; left. split; [lia|].
    rewrite cont_byte, shiftr_6, lor_lead2 by divmod. reflexivity. }
  destruct (Z.ltb_spec c 0x10000).
  { destruct (in_range 0xD800 0xDFFF c) eqn:Hs; [discriminate|].
    apply in_range_false in Hs.
    intros E; apply Ok_inj in E; subst bs. right; right; left.
    split; [lia|]. split; [lia|].
    rewrite !cont_byte, shiftr_6, shiftr_12, lor_lead3 by divmod.
    reflexivity. }
  destruct (Z.ltb_spec c 0x110000); [|discriminate].
  intros E; apply Ok_inj in E; subst bs. right; right; right. split; [lia|].
  rewrite !cont_byte, shiftr_6, shiftr_12, shiftr_18, lor_lead4 by divmod.
  reflexivity.
Qed.

Lemma utf8_encode_char_scalar (c : Z) :
  scalar_value c -> exists bs, utf8_encode_char c = Ok bs.
Proof.
  intros [Hr Hs]. unfold utf8_encode_char, is_surrogate.
  destruct (Z.ltb_spec c 0); [lia|].
  destruct (Z.ltb_spec c 0x80); [eexists; reflexivity|].
  destruct (Z.ltb_spec c 0x800); [eexists; reflexivity|].
  destruct (Z.ltb_spec c 0x10000).
  { destruct (in_range 0xD800 0xDFFF c) eqn:Hin.
    - apply in_range_iff in Hin. contradiction.
    - eexists; reflexivity. }
  destruct (Z.ltb_spec c 0x110000); [eexists; reflexivity | lia].
Qed.

(** One step of the decoder, by case on the lead byte. *)
Lemma utf8_decode_1 (b0 : Z) (r : list Z) :
  0 <= b0 <= 0x7F ->
  utf8_decode (b0 :: r) = (s <- utf8_decode r ;; Ok (b0 :: s)).
Proof.
  intros H. apply in_range_iff in H. cbn [utf8_decode]. rewrite H.
  reflexivity.
Qed.

Lemma utf8_decode_2 (b0 b1 : Z) (r : list Z) :
  0xC2 <= b0 <= 0xDF -> 0x80 <= b1 <= 0xBF ->
  utf8_decode (b0 :: b1 :: r)
  = (s <- utf8_decode r ;; Ok ((b0 - 192) * 64 + (b1 - 128) :: s)).
Proof.
  intros H0 H1.
  assert (Hn : in_range 0 0x7F b0 = false) by (apply in_range_false; lia).
  apply in_range_iff in H0 as H0'. apply in_range_iff in H1 as H1'.
  cbn [utf8_decode]. unfold is_cont. rewrite Hn, H0', H1', decode2_value.
  replace (b0 mod 32 * 64 + b1 mod 64) with ((b0 - 192) * 64 + (b1 - 128))
    by divmod.
  reflexivity.
Qed.
Lemma second_ok3_iff (b0 b1 : Z) :
  second_ok3 b0 b1 = true
  <-> (0x80 <= b1 <= 0xBF /\ (b0 = 0xE0 -> 0xA0 <= b1)
       /\ (b0 = 0xED -> b1 <= 0x9F)).
Proof.
  unfold second_ok3, is_cont.
  destruct (Z.eqb_spec b0 0xE0); [rewrite in_range_iff; lia|].
  destruct (Z.eqb_spec b0 0xED); rewrite in_range_iff; lia.
Qed.

Lemma second_ok4_iff (b0 b1 : Z) :
  second_ok4 b0 b1 = true
  <-> (0x80 <= b1 <= 0xBF /\ (b0 = 0xF0 -> 0x90 <= b1)
       /\ (b0 = 0xF4 -> b1 <= 0x8F)).
Proof.
  unfold second_ok4, is_cont.
  destruct (Z.eqb_spec b0 0xF0); [rewrite in_range_iff; lia|].
  destruct (Z.eqb_spec b0 0xF4); rewrite in_range_iff; lia.
Qed.

Lemma utf8_decode_3 (b0 b1 b2 : Z) (r : list Z) :
  0xE0 <= b0 <= 0xEF -> second_ok3 b0 b1 = true -> 0x80 <= b2 <= 0xBF ->
  utf8_decode (b0 :: b1 :: b2 :: r)
  = (s <- utf8_decode r ;;
     Ok ((b0 - 224) * 4096 + (b1 - 128) * 64 + (b2 - 128) :: s)).
Proof.
  intros H0 H1 H2.
  assert (Hn1 : in_range 0 0x7F b0 = false) by (apply in_range_false; lia).
  assert (Hn2 : in_range 0xC2 0xDF b0 = false) by (apply in_range_false; lia).
  apply in_range_iff in H0 as H0'. apply in_range_iff in H2 as H2'.
  cbn [utf8_decode]. unfold is_cont.
  rewrite Hn1, Hn2, H0', H1, H2', decode3_value. cbn [andb].
  apply second_ok3_iff in H1.
  replace (b0 mod 16 * 4096 + b1 mod 64 * 64 + b2 mod 64)
    with ((b0 - 224) * 4096 + (b1 - 128) * 64 + (b2 - 128)) by divmod.
  reflexivity.
Qed.

Lemma utf8_decode_4 (b0 b1 b2 b3 : Z) (r : list Z) :
  0xF0 <= b0 <= 0xF4 -> second_ok4 b0 b1 = true ->
  0x80 <= b2 <= 0xBF -> 0x80 <= b3 <= 0xBF ->
  utf8_decode (b0 :: b1 :: b2 :: b3 :: r)
  = (s <- utf8_decode r ;;
     Ok ((b0 - 240) * 262144 + (b1 - 128) * 4096 + (b2 - 128) * 64
         + (b3 - 128) :: s)).
Proof.
  intros H0 H1 H2 H3.
  assert (Hn1 : in_range 0 0x7F b0 = false) by (apply in_range_false; lia).
  assert (Hn2 : in_range 0xC2 0xDF b0 = false) by (apply in_range_false; lia).
  assert (Hn3 : in_range 0xE0 0xEF b0 = false) by (apply in_range_false; lia).
  apply in_range_iff in H0 as H0'. apply in_range_iff in H2 as H2'.
  apply in_range_iff in H3 as H3'.
  cbn [utf8_decode]. unfold is_cont.
  rewrite Hn1, Hn2, Hn3, H0', H1, H2', H3', decode4_value. cbn [andb].
  apply second_ok4_iff in H1.
  replace (b0 mod 8 * 262144 + b1 mod 64 * 4096 + b2 mod 64 * 64 + b3 mod 64)
    with ((b0 - 240) * 262144 + (b1 - 128) * 4096 + (b2 - 128) * 64
          + (b3 - 128)) by divmod.
  reflexivity.
Qed.

(** Decoding the encoding of a code point gives the code point back, and
    the encoding consists of bytes. *)
Lemma utf8_char_roundtrip (c : Z) (bs rest : list Z) :
  utf8_encode_char c = Ok bs ->
  utf8_decode (bs ++ rest) = (s <- utf8_decode rest ;; Ok (c :: s))
  /\ Forall is_byte bs /\ bs <> [].
Proof.
  intros H. apply utf8_encode_char_cases in H.
  destruct H as [[Hc ->] | [[Hc ->] | [(Hc & Hs & ->) | [Hc ->]]]];
    cbn [app]; (split; [|split; [|discriminate]]).
  - apply utf8_decode_1. lia.
  - repeat constructor; unfold is_byte; lia.
  - rewrite utf8_decode_2 by divmod.
    replace ((192 + c / 64 - 192) * 64 + (128 + c mod 64 - 128)) with c
      by divmod.
    reflexivity.
  - repeat constructor; unfold is_byte; divmod.
  - rewrite utf8_decode_3;
      [| divmod | apply second_ok3_iff; divmod | divmod].
    replace ((224 + c / 4096 - 224) * 4096
             + (128 + (c / 64) mod 64 - 128) * 64 + (128 + c mod 64 - 128))
      with c by divmod.
    reflexivity.
  - repeat constructor; unfold is_byte; divmod.
  - rewrite utf8_decode_4;
      [| divmod | apply second_ok4_iff; divmod | divmod | divmod].
    replace ((240 + c / 262144 - 240) * 262144
             + (128 + (c / 4096) mod 64 - 128) * 4096
             + (128 + (c / 64) mod 64 - 128) * 64 + (128 + c mod 64 - 128))
      with c by divmod.
    reflexivity.
  - repeat constructor; unfold is_byte; divmod.
Qed.
Lemma utf8_roundtrip (s : str) (bs : list Z) :
  utf8_encode s = Ok bs -> utf8_decode bs = Ok s /\ Forall is_byte bs.
Proof.
  revert bs; induction s as [|c s IH]; intros bs; cbn [utf8_encode].
  - intros E; apply Ok_inj in E; subst bs. split; [reflexivity | constructor].
  - destruct (utf8_encode_char c) as [b|e] eqn:Hc; [|discriminate].
    destruct (utf8_encode s) as [more|e] eqn:Hs; [|discriminate].
    cbn [bind]. intros E; apply Ok_inj in E; subst bs.
    destruct (IH more eq_refl) as [Hd Hb].
    destruct (@utf8_char_roundtrip c b more Hc) as (Hstep & Hbytes & _).
    split.
    + rewrite Hstep, Hd. reflexivity.
    + apply Forall_app. split; assumption.
Qed.

Lemma utf8_encode_total (s : str) :
  utf8_text s -> exists bs, utf8_encode s = Ok bs.
Proof.
  induction 1 as [|c s Hc _ [more IH]]; cbn [utf8_encode].
  - eexists; reflexivity.
  - destruct (utf8_encode_char_scalar Hc) as [b Hb].
    rewrite Hb, IH. eexists; reflexivity.
Qed.

Lemma utf8_encode_app (s1 s2 : str) :
  utf8_encode (s1 ++ s2)
  = (b1 <- utf8_encode s1 ;; b2 <- utf8_encode s2 ;; Ok (b1 ++ b2)).
Proof.
  induction s1 as [|c s1 IH]; cbn [app utf8_encode bind].
  - destruct (utf8_encode s2); reflexivity.
  - destruct (utf8_encode_char c) as [b|e]; cbn [bind]; [|reflexivity].
    rewrite IH. destruct (utf8_encode s1) as [b1|e]; cbn [bind];
      [|reflexivity].
    destruct (utf8_encode s2) as [b2|e]; cbn [bind]; [|reflexivity].
    rewrite app_assoc. reflexivity.
Qed.

Lemma utf8_encode_empty (s : str) : utf8_encode s = Ok [] -> s = [].
Proof.
  destruct s as [|c s]; [reflexivity|]. cbn [utf8_encode].
  destruct (utf8_encode_char c) as [b|e] eqn:Hc; [|discriminate].
  destruct (utf8_encode s) as [more|e]; [|discriminate].
  cbn [bind]. intros E; apply Ok_inj in E.
  destruct (@utf8_char_roundtrip c b [] Hc) as (_ & _ & Hne).
  apply app_eq_nil in E. destruct E as [E _]. contradiction.
Qed.

(** The encoder in arithmetic form. *)
Lemma utf8_encode_char_1 (c : Z) :
  0 <= c < 0x80 -> utf8_encode_char c = Ok [c].
Proof.
  intros H. unfold utf8_encode_char.
  destruct (Z.ltb_spec c 0); [lia|]. destruct (Z.ltb_spec c 0x80); [|lia].
  reflexivity.
Qed.

Lemma utf8_encode_char_arith (c : Z) (bs : list Z) :
  scalar_value c ->
  (0x80 <= c < 0x800 -> bs = [192 + c / 64; 128 + c mod 64]) ->
  (0x800 <= c < 0x10000 ->
   bs = [224 + c / 4096; 128 + (c / 64) mod 64; 128 + c mod 64]) ->
  (0x10000 <= c ->
   bs = [240 + c / 262144; 128 + (c / 4096) mod 64;
         128 + (c / 64) mod 64; 128 + c mod 64]) ->
  0x80 <= c ->
  utf8_encode_char c = Ok bs.
Proof.
  intros Hs H2 H3 H4 Hc.
  destruct (utf8_encode_char_scalar Hs) as [bs' Hbs']. rewrite Hbs'.
  apply utf8_encode_char_cases in Hbs'. destruct Hs as [Hr Hs].
  destruct Hbs' as [[Hc' ->] | [[Hc' ->] | [(Hc' & _ & ->) | [Hc' ->]]]].
  - lia.
  - rewrite H2 by lia. reflexivity.
  - rewrite H3 by lia. reflexivity.
  - rewrite H4 by lia. reflexivity.
Qed.

(** A successful decoding step consumes the encoding of the code point it
    yields. *)
Lemma utf8_decode_inv (b0 : Z) (r : list Z) (s : str) :
  utf8_decode (b0 :: r) = Ok s ->
  exists c bs r' s',
    b0 :: r = bs ++ r' /\ (length r' < length (b0 :: r))%nat
    /\ utf8_decode r' = Ok s' /\ s = c :: s'
    /\ utf8_encode_char c = Ok bs.
Proof.
  cbn [utf8_decode]. unfold is_cont.
  destruct (in_range 0 0x7F b0) eqn:R1.
  { apply in_range_iff in R1.
    destruct (utf8_decode r) as [s'|e] eqn:Hd; [|discriminate]. cbn [bind].
    intros E; apply Ok_inj in E; subst s.
    exists b0, [b0], r, s'. repeat split; try reflexivity; try assumption.
    - simpl; lia.
    - apply utf8_encode_char_1. lia. }
  destruct (in_range 0xC2 0xDF b0) eqn:R2.
  { apply in_range_iff in R2.
    destruct r as [|b1 r1]; [discriminate|].
    destruct (in_range 0x80 0xBF b1) eqn:C1; [|discriminate].
    apply in_range_iff in C1.
    destruct (utf8_decode r1) as [s'|e] eqn:Hd; [|discriminate]. cbn [bind].
    rewrite decode2_value.
    intros E; apply Ok_inj in E; subst s.
    eexists _, [b0; b1], r1, s'. repeat split; try reflexivity; try assumption.
    - simpl; lia.
    - apply utf8_encode_char_arith; try split; intros; try divmod.
      f_equal; [|f_equal]; divmod. }
  destruct (in_range 0xE0 0xEF b0) eqn:R3.
  { apply in_range_iff in R3.
    destruct r as [|b1 [|b2 r2]]; try discriminate.
    destruct (second_ok3 b0 b1) eqn:S3; [|discriminate].
    destruct (in_range 0x80 0xBF b2) eqn:C2; [|discriminate].
    apply in_range_iff in C2. apply second_ok3_iff in S3.
    cbn [andb].
    destruct (utf8_decode r2) as [s'|e] eqn:Hd; [|discriminate]. cbn [bind].
    rewrite decode3_value.
    intros E; apply Ok_inj in E; subst s.
    eexists _, [b0; b1; b2], r2, s'. repeat split; try reflexivity; try assumption.
    - simpl; lia.
    - apply utf8_encode_char_arith; try split; intros; try divmod.
      f_equal; [|f_equal; [|f_equal]]; divmod. }
  destruct (in_range 0xF0 0xF4 b0) eqn:R4; [|discriminate].
  apply in_range_iff in R4.
  destruct r as [|b1 [|b2 [|b3 r3]]]; try discriminate.
  destruct (second_ok4 b0 b1) eqn:S4; [|discriminate].
  destruct (in_range 0x80 0xBF b2) eqn:C2; [|discriminate].
  destruct (in_range 0x80 0xBF b3) eqn:C3; [|discriminate].
  apply in_range_iff in C2, C3. apply second_ok4_iff in S4.
  cbn [andb].
  destruct (utf8_decode r3) as [s'|e] eqn:Hd; [|discriminate]. cbn [bind].
  rewrite decode4_value.
  intros E; apply Ok_inj in E; subst s.
  eexists _, [b0; b1; b2; b3], r3, s'. repeat split; try reflexivity; try assumption.
  - simpl; lia.
  - apply utf8_encode_char_arith; try split; intros; try divmod.
    f_equal; [|f_equal; [|f_equal; [|f_equal]]]; divmod.
Qed.

(** Strictness of the decoder: what it accepts is the encoding of what it
    returns. *)
Lemma utf8_decode_encode (bs : list Z) (s : str) :
  utf8_decode bs = Ok s -> utf8_encode s = Ok bs.
Proof.
  remember (length bs) as n eqn:Hn. revert bs s Hn.
  induction n as [n IH] using lt_wf_ind. intros bs s Hn Hd.
  destruct bs as [|b0 r].
  - simpl in Hd. apply Ok_inj in Hd. subst s. reflexivity.
  - apply utf8_decode_inv in Hd.
    destruct Hd as (c & b & r' & s' & Hsplit & Hlen & Hd' & -> & Hc).
    cbn [utf8_encode]. rewrite Hc. cbn [bind].
    rewrite (IH (length r') ltac:(lia) r' s' eq_refl Hd'). cbn [bind].
    rewrite Hsplit. reflexivity.
Qed.
(** ** The decoding loop *)

Lemma list_pop_snoc (l : list token) (x : token) :
  list_pop (l ++ [x]) = Some (x, l).
Proof.
  unfold list_pop. rewrite rev_app_distr. simpl. rewrite rev_involutive.
  reflexivity.
Qed.

Lemma decode_loop_S_snoc (fuel : nat) (rmm : dict token pair_t)
    (stack out : list token) (t : token) :
  decode_loop (S fuel) rmm (stack ++ [t]) out
  = match dict_get Z.eqb rmm t with
    | Some (first, second) =>
        decode_loop fuel rmm ((stack ++ [second]) ++ [first]) out
    | None => decode_loop fuel rmm stack (out ++ [t])
    end.
Proof. cbn [decode_loop]. rewrite list_pop_snoc. reflexivity. Qed.

Lemma decode_loop_S_nil (fuel : nat) (rmm : dict token pair_t)
    (out : list token) :
  decode_loop (S fuel) rmm [] out = Some out.
Proof. reflexivity. Qed.

(** More fuel does not change the outcome of a loop that has finished. *)
Lemma decode_loop_mono (fuel k : nat) (rmm : dict token pair_t)
    (stack out buf : list token) :
  decode_loop fuel rmm stack out = Some buf ->
  decode_loop (fuel + k) rmm stack out = Some buf.
Proof.
  revert stack out; induction fuel as [|fuel IH]; intros stack out;
    [discriminate|].
  destruct stack as [|x stack'] using rev_ind.
  - rewrite Nat.add_succ_l, !decode_loop_S_nil. auto.
  - clear IHstack'.
    rewrite Nat.add_succ_l, !decode_loop_S_snoc.
    destruct (dict_get Z.eqb rmm x) as [[first second]|]; apply IH.
Qed.

(** A token on top of the stack is replaced by its expansion in the
    output. *)
Lemma decode_loop_expands (rmm : dict token pair_t) (t : token)
    (l : list token) :
  expands rmm t l ->
  exists n, forall k stack out,
    decode_loop (n + k) rmm (stack ++ [t]) out
    = decode_loop k rmm stack (out ++ l).
Proof.
  induction 1 as [t Hget | t a b la lb Hget _ [na IHa] _ [nb IHb]].
  - exists 1%nat. intros k stack out.
    change (1 + k)%nat with (S k). rewrite decode_loop_S_snoc, Hget.
    reflexivity.
  - exists (S (na + nb)). intros k stack out.
    change (S (na + nb) + k)%nat with (S (na + nb + k)).
    rewrite decode_loop_S_snoc, Hget.
    rewrite <- Nat.add_assoc, IHa, IHb, app_assoc. reflexivity.
Qed.

Lemma decode_loop_expands_list (rmm : dict token pair_t)
    (ts l : list token) :
  expands_list rmm ts l ->
  exists n, forall k stack out,
    decode_loop (n + k) rmm (stack ++ rev ts) out
    = decode_loop k rmm stack (out ++ l).
Proof.
  induction 1 as [| t ts l ls Ht _ [n IH]].
  - exists O. intros k stack out. simpl. rewrite !app_nil_r. reflexivity.
  - destruct (decode_loop_expands Ht) as [nt Hnt].
    exists (nt + n)%nat. intros k stack out.
    cbn [rev]. rewrite app_assoc, <- Nat.add_assoc, Hnt, IH, app_assoc.
    reflexivity.
Qed.

(** With enough fuel the loop returns the expansion of the sequence. *)
Lemma decode_loop_complete (rmm : dict token pair_t) (ts l : list token) :
  expands_list rmm ts l ->
  exists fuel0, forall fuel,
    (fuel0 <= fuel)%nat -> decode_loop fuel rmm (rev ts) [] = Some l.
Proof.
  intros H. destruct (decode_loop_expands_list H) as [n Hn].
  exists (S n). intros fuel Hle.
  replace fuel with (n + S (fuel - S n))%nat by lia.
  specialize (Hn (S (fuel - S n)) [] []). simpl app in Hn. rewrite Hn.
  reflexivity.
Qed.

Lemma expands_list_raw (rmm : dict token pair_t) (ts : list token) :
  (forall t, In t ts -> dict_get Z.eqb rmm t = None) ->
  expands_list rmm ts ts.
Proof.
  induction ts as [|t ts IH]; intros H.
  - constructor.
  - change (t :: ts) with ([t] ++ ts) at 2. constructor.
    + constructor. apply H. left; reflexivity.
    + apply IH. intros; apply H; right; assumption.
Qed.

(** The loop on a sequence without ids of the map: one step per element. *)
Lemma decode_loop_raw (rmm : dict token pair_t) (l : list token) :
  (forall t, In t l -> dict_get Z.eqb rmm t = None) ->
  forall k stack out,
    decode_loop (length l + k) rmm (stack ++ rev l) out
    = decode_loop k rmm stack (out ++ l).
Proof.
  induction l as [|t l IH]; intros H k stack out.
  - simpl. rewrite !app_nil_r. reflexivity.
  - cbn [rev length]. rewrite app_assoc, Nat.add_succ_l, decode_loop_S_snoc.
    rewrite (H t) by (left; reflexivity).
    rewrite IH by (intros; apply H; right; assumption).
    rewrite <- app_assoc. reflexivity.
Qed.

Lemma py_bytes_ok (l : list Z) : Forall is_byte l -> py_bytes l = Ok l.
Proof.
  intros H. unfold py_bytes.
  replace (forallb (in_range 0 255) l) with true; [reflexivity|].
  symmetry. apply forallb_forall. intros x Hx.
  apply in_range_iff. rewrite Forall_forall in H. apply (H x Hx).
Qed.

Lemma py_bytes_raise (l : list Z) :
  ~ Forall is_byte l -> py_bytes l = Raise ValueError.
Proof.
  intros H. unfold py_bytes.
  destruct (forallb (in_range 0 255) l) eqn:E; [|reflexivity].
  exfalso. apply H. apply Forall_forall. intros x Hx.
  rewrite forallb_forall in E. apply in_range_iff. auto.
Qed.

(** C9. Decoding an un-encoded sequence: for every sequence of raw byte
    values (0-255) that is valid UTF-8 (it decodes to the text [s]),
    [decode_byte_pair] with an empty merge map returns exactly [s], the loop
    needing one step per byte and one to exit. *)
Theorem decode_raw_bytes (bs : list token) (s : str) (fuel : nat) :
  Forall is_byte bs -> utf8_decode bs = Ok s -> (length bs < fuel)%nat ->
  decode_byte_pair fuel bs [] = Some (Ok s).
Proof.
  intros Hb Hd Hfuel. unfold decode_byte_pair.
  change (reverse_map []) with (@nil (token * pair_t)).
  replace fuel with (length bs + S (fuel - S (length bs)))%nat by lia.
  pose proof (@decode_loop_raw [] bs (fun _ _ => eq_refl)
                (S (fuel - S (length bs))) [] []) as Hloop.
  simpl app in Hloop. rewrite Hloop, decode_loop_S_nil.
  unfold bytes_to_text. rewrite py_bytes_ok by assumption. simpl bind.
  rewrite Hd. reflexivity.
Qed.

Lemma decode_raw_bytes_witness :
  decode_byte_pair 4 [226; 130; 172] [] = Some (Ok [0x20AC]).
Proof.
  apply decode_raw_bytes.
  - repeat constructor; unfold is_byte; lia.
  - reflexivity.
  - simpl; lia.
Defined.
(** ** Training keeps the corpus recoverable *)

Lemma reverse_map_snoc (mm : dict pair_t token) (p : pair_t) (id : token) :
  reverse_map (mm ++ [(p, id)]) = dict_set Z.eqb (reverse_map mm) id p.
Proof. unfold reverse_map. rewrite fold_left_app. reflexivity. Qed.

Lemma reverse_map_In (mm : dict pair_t token) (t : token) (p : pair_t) :
  dict_get Z.eqb (reverse_map mm) t = Some p -> In (p, t) mm.
Proof.
  induction mm as [|[q id] mm IH] using rev_ind; [discriminate|].
  rewrite reverse_map_snoc, (@dict_get_set _ _ _ Z.eqb_spec).
  intros H. apply in_or_app.
  destruct (Z.eqb_spec id t) as [->|Hne].
  - right. injection H as ->. left; reflexivity.
  - left. auto.
Qed.

Lemma expands_weaken (rmm : dict token pair_t) (tid : token) (p : pair_t)
    (t : token) (l : list token) :
  (forall x a b, dict_get Z.eqb rmm x = Some (a, b) -> a < x /\ b < x) ->
  expands rmm t l -> t < tid ->
  expands (dict_set Z.eqb rmm tid p) t l.
Proof.
  intros Hacyc. induction 1 as [t Hget | t a b la lb Hget _ IHa _ IHb];
    intros Hlt.
  - apply expands_raw. rewrite (@dict_get_set _ _ _ Z.eqb_spec).
    destruct (Z.eqb_spec tid t); [lia | assumption].
  - destruct (Hacyc _ _ _ Hget) as [Ha Hb].
    apply expands_id with (a := a) (b := b).
    + rewrite (@dict_get_set _ _ _ Z.eqb_spec).
      destruct (Z.eqb_spec tid t); [lia | assumption].
    + apply IHa; lia.
    + apply IHb; lia.
Qed.

Lemma expands_list_weaken (rmm : dict token pair_t) (tid : token)
    (p : pair_t) (ts l : list token) :
  (forall x a b, dict_get Z.eqb rmm x = Some (a, b) -> a < x /\ b < x) ->
  expands_list rmm ts l -> (forall t, In t ts -> t < tid) ->
  expands_list (dict_set Z.eqb rmm tid p) ts l.
Proof.
  intros Hacyc. induction 1 as [| t ts l ls Ht _ IH]; intros Hlt.
  - constructor.
  - constructor.
    + apply expands_weaken; [assumption | assumption |].
      apply Hlt; left; reflexivity.
    + apply IH. intros; apply Hlt; right; assumption.
Qed.

Lemma expands_list_apply_rule (rmm : dict token pair_t) (p : pair_t)
    (new_id : token) (s l : list token) :
  dict_get Z.eqb rmm new_id = Some p ->
  expands_list rmm s l -> expands_list rmm (apply_rule s p new_id) l.
Proof.
  intros Hget. revert l.
  induction s as [| x | x y rest IH1 IH2] using list_ind_two; intros l H;
    try exact H.
  rewrite apply_rule_step.
  destruct (pair_eqb_spec (x, y) p) as [E|E].
  - inversion H as [| ? ? lx l1 Hx H1]; subst.
    inversion H1 as [| ? ? ly lr Hy Hr]; subst.
    rewrite app_assoc. constructor.
    + apply expands_id with (a := x) (b := y); assumption.
    + apply IH1. assumption.
  - inversion H as [| ? ? lx l1 Hx H1]; subst.
    constructor; [assumption|]. apply IH2. assumption.
Qed.

Lemma decode_inv_merged (m0 : Z) (corpus : list token) (st : train_state)
    (p : pair_t) :
  train_inv m0 st -> decode_inv corpus st ->
  decode_inv corpus (merged_state st p).
Proof.
  intros (Hseq & Hmap & Hnd & Hsort) [Hexp Hrev].
  unfold merged_state.
  destruct (dict_get pair_eqb (merge_map st) p) as [id|] eqn:Hg.
  - split; simpl; [|assumption].
    rewrite merge_byte_pair_rule. apply expands_list_apply_rule; auto.
  - assert (Hacyc : forall x a b,
               dict_get Z.eqb (reverse_map (merge_map st)) x = Some (a, b) ->
               a < x /\ b < x).
    { intros x a b Hx. apply reverse_map_In in Hx. apply Hmap in Hx. lia. }
    split; simpl; rewrite reverse_map_snoc.
    + rewrite merge_byte_pair_rule. apply expands_list_apply_rule.
      * rewrite (@dict_get_set _ _ _ Z.eqb_spec), Z.eqb_refl. reflexivity.
      * apply expands_list_weaken; assumption.
    + intros q id.
      rewrite <- (@dict_set_fresh _ _ pair_eqb) by exact Hg.
      rewrite (@dict_get_set _ _ _ pair_eqb_spec),
              (@dict_get_set _ _ _ Z.eqb_spec).
      destruct (pair_eqb_spec p q) as [->|Hne].
      * intros E; injection E as <-. rewrite Z.eqb_refl. reflexivity.
      * intros Hq. destruct (Z.eqb_spec (token_id st) id) as [<-|Hid].
        -- apply (@dict_get_In _ _ _ pair_eqb_spec) in Hq.
           destruct q as [a b]. apply Hmap in Hq. lia.
        -- auto.
Qed.

Lemma bpe_loop_decode_inv (m0 : Z) (corpus : list token) (n : nat)
    (st st' : train_state) :
  train_inv m0 st -> m0 < token_id st -> decode_inv corpus st ->
  bpe_loop n st = Ok st' -> decode_inv corpus st'.
Proof.
  revert st; induction n as [|n IH]; intros st Hinv Hm0 Hdec.
  - simpl. intros H; injection H as <-. assumption.
  - rewrite bpe_loop_S.
    destruct (bpe_iteration_cases st) as [[_ Hb] | [_ [p [Hocc [_ Hs]]]]].
    + rewrite Hb. simpl. intros H; injection H as <-. assumption.
    + rewrite Hs. simpl bind. apply IH.
      * apply train_inv_merged; assumption.
      * pose proof (merged_state_counter st p). lia.
      * eapply decode_inv_merged; eassumption.
Qed.

Lemma decode_inv_init (corpus : list token) (tid : token) :
  decode_inv corpus (mk_state corpus tid []).
Proof.
  split; simpl.
  - apply expands_list_raw. reflexivity.
  - discriminate.
Qed.

(** Training never fails on a non-empty corpus, and the decoding loop gives
    the corpus back from what training returns. *)
Lemma training_recoverable (texts : list str) (corpus : list token)
    (num_merges : Z) :
  join_corpus texts = Ok corpus -> corpus <> [] ->
  exists enc mm,
    byte_pair_encoding texts num_merges = Ok (enc, mm)
    /\ exists fuel0, forall fuel,
         (fuel0 <= fuel)%nat ->
         decode_loop fuel (reverse_map mm) (rev enc) [] = Some corpus.
Proof.
  intros Hj Hne. unfold byte_pair_encoding. rewrite Hj. cbn [bind].
  destruct corpus as [|x rest]; [contradiction|].
  destruct (py_max_key_spec (fun z => z) x rest) as [m [Hm _]].
  change (py_max_key (fun z => z) (x :: rest)) with (py_max (x :: rest)) in Hm.
  rewrite Hm. cbn [bind].
  destruct (bpe_loop_total (Z.to_nat num_merges)
              (mk_state (x :: rest) (m + 1) [])) as [st [Hl _]].
  rewrite Hl. cbn [bind].
  exists (byte_text st), (merge_map st). split; [reflexivity|].
  apply decode_loop_complete.
  apply (@bpe_loop_decode_inv m (x :: rest) (Z.to_nat num_merges)
           (mk_state (x :: rest) (m + 1) []) st).
  - apply train_inv_init. assumption.
  - simpl. lia.
  - apply decode_inv_init.
  - assumption.
Qed.
(** ** Corpus framer: join *)

Lemma SEP_TOKEN_encoded : utf8_encode SEP_TOKEN = Ok SEP_TOKEN_BYTES.
Proof. reflexivity. Qed.

Lemma join_cons2 (A : Type) (sep p q : list A) (rest : list (list A)) :
  join sep (p :: q :: rest) = p ++ sep ++ join sep (q :: rest).
Proof. reflexivity. Qed.

Lemma encode_all_cons (t : str) (rest : list str) :
  encode_all (t :: rest)
  = (b <- utf8_encode t ;; bs <- encode_all rest ;; Ok (b :: bs)).
Proof. reflexivity. Qed.

(** Joining the encoded blocks is encoding the joined text. *)
Lemma join_corpus_encode (texts : list str) :
  join_corpus texts = utf8_encode (join SEP_TOKEN texts).
Proof.
  unfold join_corpus.
  induction texts as [| t | t u rest _ IH] using list_ind_two.
  - reflexivity.
  - cbn [encode_all join bind]. destruct (utf8_encode t); reflexivity.
  - rewrite join_cons2, !utf8_encode_app, SEP_TOKEN_encoded.
    rewrite encode_all_cons. rewrite <- IH.
    destruct (utf8_encode t) as [b|e]; cbn [bind]; [|reflexivity].
    destruct (encode_all (u :: rest)) as [bs|e] eqn:Hu; cbn [bind];
      [|reflexivity].
    destruct bs as [|b' bs'].
    + cbn [encode_all bind] in Hu.
      destruct (utf8_encode u); cbn [bind] in Hu; [|discriminate].
      destruct (encode_all rest); discriminate.
    + reflexivity.
Qed.


Lemma join_corpus_bytes (texts : list str) (corpus : list token) :
  join_corpus texts = Ok corpus -> Forall is_byte corpus.
Proof.
  rewrite join_corpus_encode. intros H. apply utf8_roundtrip in H. apply H.
Qed.

Lemma join_empty (A : Type) (sep : list A) (parts : list (list A)) :
  sep <> [] -> join sep parts = [] -> parts = [] \/ parts = [[]].
Proof.
  intros Hsep. destruct parts as [|p [|q rest]]; intros H.
  - left; reflexivity.
  - right. simpl in H. subst p. reflexivity.
  - rewrite join_cons2 in H. apply app_eq_nil in H. destruct H as [_ H].
    apply app_eq_nil in H. destruct H as [H _]. contradiction.
Qed.
(** ** Corpus framer: split *)

Lemma split_loop_nil (s0 : Z) (sep' cur : str) :
  split_loop s0 sep' [] cur = [cur].
Proof. simp split_loop. reflexivity. Qed.

Lemma split_loop_match (s0 : Z) (sep' : str) (c : Z) (rest cur : str) :
  starts_with (s0 :: sep') (c :: rest) = true ->
  split_loop s0 sep' (c :: rest) cur
  = cur :: split_loop s0 sep' (skipn (length sep') rest) [].
Proof. intros H. simp split_loop. rewrite H. simp split_loop. reflexivity. Qed.

Lemma split_loop_nomatch (s0 : Z) (sep' : str) (c : Z) (rest cur : str) :
  starts_with (s0 :: sep') (c :: rest) = false ->
  split_loop s0 sep' (c :: rest) cur = split_loop s0 sep' rest (cur ++ [c]).
Proof. intros H. simp split_loop. rewrite H. simp split_loop. reflexivity. Qed.
Lemma starts_with_split (p text : str) :
  starts_with p text = true -> text = p ++ skipn (length p) text.
Proof.
  revert text; induction p as [|x p IH]; intros text H; [reflexivity|].
  destruct text as [|c cs]; [discriminate|]. cbn [starts_with] in H.
  apply andb_true_iff in H. destruct H as [Hx Hp].
  apply Z.eqb_eq in Hx. subst c. cbn [length skipn app]. f_equal. auto.
Qed.

Lemma starts_with_sep (c : Z) (rest : str) :
  starts_with SEP_TOKEN (c :: rest) = true ->
  c = 91 /\ rest = [83; 69; 80; 93] ++ skipn 4 rest.
Proof.
  intros H. apply starts_with_split in H.
  change (skipn (length SEP_TOKEN) (c :: rest)) with (skipn 4 rest) in H.
  cbn [SEP_TOKEN app] in H. injection H as Hc Hrest. split; assumption.
Qed.

Ltac decide_eqbs :=
  repeat match goal with
         | |- context [Z.eqb ?a ?b] => destruct (Z.eqb a b); cbn [andb]
         end;
  try reflexivity; try discriminate.

(** No occurrence of the separator starts inside a separator, except at its
    first character. *)
Lemma occurrences_skip_sep (text : str) :
  occurrences SEP_TOKEN ([83; 69; 80; 93] ++ text)
  = occurrences SEP_TOKEN text.
Proof. reflexivity. Qed.

Lemma split_loop_length (text cur : str) :
  length (split_loop 91 [83; 69; 80; 93] text cur)
  = S (occurrences SEP_TOKEN text).
Proof.
  remember (length text) as n eqn:Hn. revert text cur Hn.
  induction n as [n IH] using lt_wf_ind. intros text cur Hn.
  destruct text as [|c rest].
  - rewrite split_loop_nil. reflexivity.
  - cbn [occurrences].
    destruct (starts_with SEP_TOKEN (c :: rest)) eqn:Hs.
    + rewrite split_loop_match by exact Hs.
      change (length [83; 69; 80; 93]) with 4%nat.
      apply starts_with_sep in Hs. destruct Hs as [Hc Hrest].
      assert (Hocc : occurrences SEP_TOKEN rest
                     = occurrences SEP_TOKEN (skipn 4 rest)).
      { rewrite Hrest at 1. apply occurrences_skip_sep. }
      rewrite Hocc. cbn [length]. f_equal.
      apply (IH (length (skipn 4 rest))); [|reflexivity].
      subst n. cbn [length]. rewrite length_skipn. lia.
    + rewrite split_loop_nomatch by exact Hs.
      rewrite (IH (length rest)); [reflexivity | | reflexivity].
      subst n. simpl. lia.
Qed.

Lemma join_cons_nonempty (A : Type) (sep p : list A) (rest : list (list A)) :
  rest <> [] -> join sep (p :: rest) = p ++ sep ++ join sep rest.
Proof. destruct rest; [contradiction | reflexivity]. Qed.


Lemma contains_cons (sub : str) (c : Z) (text : str) :
  contains sub (c :: text) = false ->
  starts_with sub (c :: text) = false /\ contains sub text = false.
Proof. cbn [contains]. intros H. apply orb_false_iff in H. exact H. Qed.

(** The separator has no border: an occurrence cannot start in a block
    without it and run into a following separator. *)
Lemma no_straddle (c : Z) (b more : str) :
  contains SEP_TOKEN (c :: b) = false ->
  starts_with SEP_TOKEN ((c :: b) ++ SEP_TOKEN ++ more) = false.
Proof.
  intros H. apply contains_cons in H. destruct H as [H _].
  destruct b as [|x1 [|x2 [|x3 [|x4 b]]]];
    cbn [starts_with SEP_TOKEN app] in *;
    try (change (83 =? 91) with false); try (change (69 =? 91) with false);
    try (change (80 =? 91) with false); try (change (93 =? 91) with false);
    try exact H;
    decide_eqbs.
Qed.

Lemma split_loop_block (b more cur : str) :
  contains SEP_TOKEN b = false ->
  split_loop 91 [83; 69; 80; 93] (b ++ SEP_TOKEN ++ more) cur
  = (cur ++ b) :: split_loop 91 [83; 69; 80; 93] more [].
Proof.
  revert cur; induction b as [|c b IH]; intros cur H.
  - cbn [app SEP_TOKEN]. rewrite split_loop_match.
    + rewrite app_nil_r. reflexivity.
    + cbn [starts_with]. rewrite !Z.eqb_refl. reflexivity.
  - pose proof (@no_straddle c b more H) as Hn.
    cbn [app] in *. rewrite split_loop_nomatch by exact Hn.
    apply contains_cons in H. destruct H as [_ H].
    rewrite IH by exact H. rewrite <- app_assoc. reflexivity.
Qed.

Lemma split_loop_last (b cur : str) :
  contains SEP_TOKEN b = false ->
  split_loop 91 [83; 69; 80; 93] b cur = [cur ++ b].
Proof.
  revert cur; induction b as [|c b IH]; intros cur H.
  - rewrite split_loop_nil, app_nil_r. reflexivity.
  - apply contains_cons in H. destruct H as [Hs H].
    rewrite split_loop_nomatch by exact Hs.
    rewrite IH by exact H. rewrite <- app_assoc. reflexivity.
Qed.

(** Splitting the joined blocks gives the blocks back. *)
Lemma split_join (blocks : list str) :
  blocks <> [] ->
  Forall (fun b => contains SEP_TOKEN b = false) blocks ->
  split_on_sep_default (join SEP_TOKEN blocks) = Ok blocks.
Proof.
  intros Hne Hall. unfold split_on_sep_default, split_on_sep, str_split.
  cbn [SEP_TOKEN]. f_equal. fold SEP_TOKEN.
  induction blocks as [| b | b b2 rest _ IH] using list_ind_two.
  - contradiction.
  - inversion Hall; subst. cbn [join]. rewrite split_loop_last by assumption.
    reflexivity.
  - inversion Hall; subst. rewrite join_cons2.
    rewrite split_loop_block by assumption.
    rewrite IH by (assumption || discriminate). reflexivity.
Qed.

(** ** The full pipeline *)

Lemma join_Forall (A : Type) (P : A -> Prop) (sep : list A)
    (parts : list (list A)) :
  Forall P sep -> Forall (Forall P) parts -> Forall P (join sep parts).
Proof.
  intros Hsep Hparts.
  induction parts as [| p | p q rest _ IH] using list_ind_two.
  - constructor.
  - inversion Hparts; assumption.
  - rewrite join_cons2. inversion Hparts; subst.
    apply Forall_app. split; [assumption|].
    apply Forall_app. split; [assumption | auto].
Qed.

Lemma SEP_TOKEN_text : utf8_text SEP_TOKEN.
Proof. repeat constructor; lia. Qed.

(** The joined corpus of well-formed blocks exists, and is empty only for
    no block at all or a single empty block. *)
Lemma join_corpus_total (blocks : list str) :
  Forall utf8_text blocks ->
  exists corpus, join_corpus blocks = Ok corpus
                 /\ utf8_decode corpus = Ok (join SEP_TOKEN blocks)
                 /\ (corpus = [] -> blocks = [] \/ blocks = [[]]).
Proof.
  intros Hall.
  destruct (@utf8_encode_total (join SEP_TOKEN blocks)) as [corpus Hc].
  { apply join_Forall; [exact SEP_TOKEN_text | exact Hall]. }
  exists corpus. rewrite join_corpus_encode. split; [exact Hc|]. split.
  - apply utf8_roundtrip. exact Hc.
  - intros ->. apply utf8_encode_empty in Hc.
    apply join_empty in Hc; [exact Hc | discriminate].
Qed.

(** C1 (as amended). Full-pipeline round trip: for every sequence of text
    blocks that UTF-8 can encode, none of which contains the separator
    text, and which is neither empty nor the single empty block (so the
    joined corpus is not empty), and for every [num_merges], training
    returns normally; with enough fuel the decoding loop applied to the
    encoded sequence and its merge map reproduces the bytes of the joined
    corpus exactly, [decode_byte_pair] returns the text whose encoding is
    the joined corpus, and splitting that text on the separator gives back
    the blocks. *)
Theorem pipeline_round_trip (blocks : list str) (num_merges : Z) :
  Forall utf8_text blocks ->
  Forall (fun b => contains SEP_TOKEN b = false) blocks ->
  blocks <> [] -> blocks <> [[]] ->
  exists corpus enc mm text,
    join_corpus blocks = Ok corpus
    /\ byte_pair_encoding blocks num_merges = Ok (enc, mm)
    /\ utf8_encode text = Ok corpus
    /\ split_on_sep_default text = Ok blocks
    /\ exists fuel0, forall fuel,
         (fuel0 <= fuel)%nat ->
         decode_loop fuel (reverse_map mm) (rev enc) [] = Some corpus
         /\ decode_byte_pair fuel enc mm = Some (Ok text).
Proof.
  intros Htext Hsep Hne Hne1.
  destruct (join_corpus_total Htext) as (corpus & Hj & Hd & Hempty).
  assert (Hcne : corpus <> []).
  { intros E. destruct (Hempty E); contradiction. }
  destruct (@training_recoverable blocks corpus num_merges Hj Hcne)
    as (enc & mm & Hbpe & fuel0 & Hloop).
  exists corpus, enc, mm, (join SEP_TOKEN blocks).
  split; [exact Hj|]. split; [exact Hbpe|]. split.
  { rewrite <- join_corpus_encode. exact Hj. }
  split; [apply split_join; assumption|].
  exists fuel0. intros fuel Hfuel. split; [apply Hloop; exact Hfuel|].
  unfold decode_byte_pair. rewrite (Hloop fuel Hfuel).
  unfold bytes_to_text.
  rewrite py_bytes_ok by (eapply join_corpus_bytes; exact Hj).
  cbn [bind]. rewrite Hd. reflexivity.
Qed.

Lemma pipeline_round_trip_witness :
  let blocks := [[97; 98]; []; [0x20AC]] in
  exists corpus enc mm text,
    join_corpus blocks = Ok corpus
    /\ byte_pair_encoding blocks 5 = Ok (enc, mm)
    /\ utf8_encode text = Ok corpus
    /\ split_on_sep_default text = Ok blocks
    /\ exists fuel0, forall fuel,
         (fuel0 <= fuel)%nat ->
         decode_loop fuel (reverse_map mm) (rev enc) [] = Some corpus
         /\ decode_byte_pair fuel enc mm = Some (Ok text).
Proof.
  apply pipeline_round_trip.
  - repeat constructor; lia.
  - repeat constructor.
  - discriminate.
  - discriminate.
Defined.

(** On an empty joined corpus (no block, or one empty block) training
    raises [ValueError] at [max(byte_text)], so nothing is decoded; and the
    empty block list could not come back in any case, the split of the
    empty text being one empty piece. *)
Lemma pipeline_empty_corpus_raises :
  (forall num_merges, byte_pair_encoding [[]] num_merges = Raise ValueError)
  /\ (forall num_merges, byte_pair_encoding [] num_merges = Raise ValueError)
  /\ join_corpus [] = Ok []
  /\ split_on_sep_default [] = Ok [[]].
Proof. repeat split. Qed.
(** ** Errors of the decoder *)

(** The strict decoder raises nothing but [UnicodeDecodeError]. *)
Lemma utf8_decode_raises (bs : list Z) (e : py_exception) :
  utf8_decode bs = Raise e -> e = UnicodeDecodeError.
Proof.
  remember (length bs) as n eqn:Hn. revert bs Hn.
  induction n as [n IH] using lt_wf_ind. intros bs Hn.
  assert (Hrec : forall r (k : str -> result str),
             (length r < n)%nat ->
             (forall s, exists s', k s = Ok s') ->
             (s <- utf8_decode r ;; k s) = Raise e ->
             e = UnicodeDecodeError).
  { intros r k Hlt Hk. destruct (utf8_decode r) as [s|e'] eqn:Hr; cbn [bind].
    - destruct (Hk s) as [s' ->]. discriminate.
    - intros E; injection E as <-. exact (IH _ Hlt r eq_refl Hr). }
  destruct bs as [|b0 r]; [discriminate|].
  cbn [utf8_decode]. cbn [length] in Hn.
  destruct (in_range 0 0x7F b0).
  { apply Hrec; [lia | intros; eexists; reflexivity]. }
  destruct (in_range 0xC2 0xDF b0).
  { destruct r as [|b1 r1]; [congruence|].
    destruct (is_cont b1); [|congruence].
    apply Hrec; [simpl in Hn; lia | intros; eexists; reflexivity]. }
  destruct (in_range 0xE0 0xEF b0).
  { destruct r as [|b1 [|b2 r2]]; try congruence.
    destruct (second_ok3 b0 b1 && is_cont b2); [|congruence].
    apply Hrec; [simpl in Hn; lia | intros; eexists; reflexivity]. }
  destruct (in_range 0xF0 0xF4 b0); [|congruence].
  destruct r as [|b1 [|b2 [|b3 r3]]]; try congruence.
  destruct (second_ok4 b0 b1 && is_cont b2 && is_cont b3); [|congruence].
  apply Hrec; [simpl in Hn; lia | intros; eexists; reflexivity].
Qed.

(** What [bytes(...).decode("utf-8")] does with the expanded buffer. *)
Lemma bytes_to_text_cases (buf : list token) :
  (~ Forall is_byte buf -> bytes_to_text buf = Raise ValueError)
  /\ (Forall is_byte buf -> (forall s, utf8_encode s <> Ok buf) ->
      bytes_to_text buf = Raise UnicodeDecodeError)
  /\ (forall s, bytes_to_text buf = Ok s -> utf8_encode s = Ok buf).
Proof.
  unfold bytes_to_text. split; [|split].
  - intros H. rewrite py_bytes_raise by exact H. reflexivity.
  - intros Hb Hno. rewrite py_bytes_ok by exact Hb. cbn [bind].
    destruct (utf8_decode buf) as [s|e] eqn:Hd.
    + apply utf8_decode_encode in Hd. exfalso. exact (Hno s Hd).
    + apply utf8_decode_raises in Hd. subst e. reflexivity.
  - intros s. unfold py_bytes.
    destruct (forallb (in_range 0 255) buf); cbn [bind]; [|discriminate].
    apply utf8_decode_encode.
Qed.

(** *** Termination of the loop under an acyclic merge map *)

Lemma filter_length_lt (A : Type) (f g : A -> bool) (l : list A) (y : A) :
  (forall x, f x = true -> g x = true) ->
  In y l -> g y = true -> f y = false ->
  (length (filter f l) < length (filter g l))%nat.
Proof.
  intros Hfg. 
  assert (Hle : forall l', (length (filter f l') <= length (filter g l'))%nat).
  { induction l' as [|x l' IH]; simpl; [lia|].
    destruct (f x) eqn:Hf.
    - rewrite (Hfg x Hf). simpl. lia.
    - destruct (g x); simpl; lia. }
  induction l as [|x l IH]; intros Hin Hg Hf; [contradiction|].
  destruct Hin as [->|Hin]; simpl.
  - rewrite Hg, Hf. simpl. specialize (Hle l). lia.
  - specialize (IH Hin Hg Hf).
    destruct (f x) eqn:Hfx.
    + rewrite (Hfg x Hfx). simpl. lia.
    + destruct (g x); simpl; lia.
Qed.

Lemma dict_get_key (d : dict token pair_t) (t : token) (p : pair_t) :
  dict_get Z.eqb d t = Some p -> In t (dict_keys d).
Proof.
  intros H. apply (@dict_get_In _ _ _ Z.eqb_spec) in H.
  apply (in_map fst) in H. exact H.
Qed.

Lemma expands_total (rmm : dict token pair_t) :
  (forall x a b, dict_get Z.eqb rmm x = Some (a, b) -> a < x /\ b < x) ->
  forall t, exists l, expands rmm t l.
Proof.
  intros Hacyc t.
  remember (below_count rmm t) as n eqn:Hn. revert t Hn.
  induction n as [n IH] using lt_wf_ind. intros t Hn.
  destruct (dict_get Z.eqb rmm t) as [[a b]|] eqn:Hget.
  - destruct (Hacyc _ _ _ Hget) as [Ha Hb].
    assert (Hrank : forall c, c < t -> (below_count rmm c < n)%nat).
    { intros c Hc. subst n. unfold below_count.
      apply filter_length_lt with (y := t).
      - intros x Hx. apply Z.leb_le in Hx. apply Z.leb_le. lia.
      - eapply dict_get_key; eassumption.
      - apply Z.leb_le. lia.
      - apply Z.leb_gt. lia. }
    destruct (IH _ (Hrank a Ha) a eq_refl) as [la Hla].
    destruct (IH _ (Hrank b Hb) b eq_refl) as [lb Hlb].
    exists (la ++ lb). eapply expands_id; eassumption.
  - exists [t]. apply expands_raw. exact Hget.
Qed.

Lemma expands_list_total (rmm : dict token pair_t) :
  (forall x a b, dict_get Z.eqb rmm x = Some (a, b) -> a < x /\ b < x) ->
  forall ts, exists l, expands_list rmm ts l.
Proof.
  intros Hacyc ts. induction ts as [|t ts [ls IH]].
  - exists []. constructor.
  - destruct (@expands_total rmm Hacyc t) as [l Hl].
    exists (l ++ ls). constructor; assumption.
Qed.

Lemma decode_loop_terminates (enc : list token) (mm : dict pair_t token) :
  acyclic mm ->
  exists fuel0 buf,
    decode_loop fuel0 (reverse_map mm) (rev enc) [] = Some buf.
Proof.
  intros Hacyc.
  assert (H : forall x a b,
             dict_get Z.eqb (reverse_map mm) x = Some (a, b) ->
             a < x /\ b < x).
  { intros x a b Hx. apply reverse_map_In in Hx. exact (Hacyc _ _ _ Hx). }
  destruct (@expands_list_total _ H enc) as [buf Hbuf].
  destruct (decode_loop_complete Hbuf) as [fuel0 Hfuel].
  exists fuel0, buf. apply Hfuel. lia.
Qed.

(** A merge map that sends an id to a pair holding the id itself: the id
    300 is met and is outside the inverse map, yet the loop never ends, so
    no error is ever raised. *)
Lemma decode_cyclic_map_diverges :
  dict_get Z.eqb (reverse_map [((256, 97), 256)]) 300 = None
  /\ forall fuel,
       decode_byte_pair fuel [300; 256] [((256, 97), 256)] = None.
Proof.
  split; [reflexivity|].
  assert (H : forall fuel stack out,
             decode_loop fuel [(256, (256, 97))] (stack ++ [256]) out = None).
  { induction fuel as [|fuel IH]; intros stack out; [reflexivity|].
    rewrite decode_loop_S_snoc. cbn [dict_get]. rewrite Z.eqb_refl.
    apply IH. }
  intros fuel. unfold decode_byte_pair.
  change (reverse_map [((256, 97), 256)]) with [(256, (256, 97))].
  destruct fuel as [|fuel]; [reflexivity|].
  change (rev [300; 256]) with ([256] ++ [300]).
  rewrite decode_loop_S_snoc. 
  change (dict_get Z.eqb [(256, (256, 97))] 300) with (@None pair_t).
  pose proof (H fuel [] [300]) as Hd. cbn [app] in Hd |- *.
  rewrite Hd. reflexivity.
Qed.

(** ** More on the merge applier *)

Lemma apply_rule_head (y : token) (rest : list token) (q : pair_t)
    (new_id : token) :
  exists tl, apply_rule (y :: rest) q new_id = y :: tl
             \/ apply_rule (y :: rest) q new_id = new_id :: tl.
Proof.
  destruct rest as [|z rest]; [exists []; left; reflexivity|].
  rewrite apply_rule_step. destruct (pair_eqb (y, z) q); eexists; eauto.
Qed.

Lemma occurs_at_cons2 (p : pair_t) (x y : token) (tl : list token) :
  occurs_at p (x :: y :: tl) 0 <-> (x, y) = p.
Proof. apply occurs_at_head. Qed.

(** An adjacent pair of the merged sequence that does not involve the new
    id was adjacent in the input, and is not the merged pair. *)
Lemma apply_rule_adjacent (s : list token) (q p : pair_t) (new_id : token) :
  fst p <> new_id -> snd p <> new_id ->
  occurs_adjacent p (apply_rule s q new_id) ->
  occurs_adjacent p s /\ p <> q.
Proof.
  intros Hf Hs.
  induction s as [| x | x y rest IH1 IH2] using list_ind_two;
    intros [i Hi].
  - destruct Hi as [Hlt _]. simpl in Hlt. lia.
  - destruct Hi as [Hlt _]. simpl in Hlt. lia.
  - rewrite apply_rule_step in Hi.
    destruct (pair_eqb_spec (x, y) q) as [E|E].
    + destruct i as [|i].
      * destruct Hi as [_ Hp]. simpl in Hp. subst p. simpl in Hf. congruence.
      * apply occurs_at_tail in Hi.
        destruct (IH1 (ex_intro _ i Hi)) as [[k Hk] Hne].
        split; [|exact Hne]. exists (S (S k)).
        apply occurs_at_tail, occurs_at_tail. exact Hk.
    + destruct i as [|i].
      * destruct (apply_rule_head y rest q new_id) as [tl [Htl | Htl]];
          rewrite Htl in Hi; apply occurs_at_cons2 in Hi.
        -- split; [|congruence]. exists O. apply occurs_at_head. exact Hi.
        -- subst p. simpl in Hs. congruence.
      * apply occurs_at_tail in Hi.
        destruct (IH2 (ex_intro _ i Hi)) as [[k Hk] Hne].
        split; [|exact Hne]. exists (S k). apply occurs_at_tail. exact Hk.
Qed.

(** X1. When the new token is neither element of the pair,
    [merge_byte_pair] leaves no adjacent occurrence of the pair in its
    result. *)
Theorem merge_byte_pair_eliminates (s : list token) (pr : pair_t)
    (new_token : token) :
  fst pr <> new_token -> snd pr <> new_token ->
  ~ occurs_adjacent pr (merge_byte_pair s pr new_token).
Proof.
  intros Hf Hs Hocc. rewrite merge_byte_pair_rule in Hocc.
  apply apply_rule_adjacent in Hocc; [|assumption|assumption].
  destruct Hocc as [_ Hne]. congruence.
Qed.

Lemma merge_byte_pair_eliminates_witness :
  ~ occurs_adjacent (7, 8) (merge_byte_pair [7; 8; 7; 7; 8] (7, 8) 300).
Proof.
  apply merge_byte_pair_eliminates; simpl; lia.
Defined.

Lemma expands_list_single_entry (s : list token) (pr : pair_t)
    (new_token : token) :
  ~ In new_token s ->
  expands_list [(new_token, pr)] s s.
Proof.
  intros Hnot. apply expands_list_raw. intros t Ht. cbn [dict_get].
  destruct (Z.eqb_spec new_token t); [subst; contradiction | reflexivity].
Qed.

(** X2. One merge is undone by the decoder: when the new token does not
    occur in the sequence, the decoding loop run on the merged sequence with
    the one-entry merge map [{pair: new_token}] returns the sequence itself,
    for every sufficient amount of fuel. *)
Theorem merge_then_decode (s : list token) (pr : pair_t) (new_token : token) :
  ~ In new_token s ->
  exists fuel0, forall fuel,
    (fuel0 <= fuel)%nat ->
    decode_loop fuel (reverse_map [(pr, new_token)])
                (rev (merge_byte_pair s pr new_token)) []
    = Some s.
Proof.
  intros Hnot. apply decode_loop_complete.
  rewrite merge_byte_pair_rule.
  change (reverse_map [(pr, new_token)]) with [(new_token, pr)].
  apply expands_list_apply_rule.
  - cbn [dict_get]. rewrite Z.eqb_refl. reflexivity.
  - apply expands_list_single_entry. exact Hnot.
Qed.

Lemma merge_then_decode_witness :
  exists fuel0, forall fuel,
    (fuel0 <= fuel)%nat ->
    decode_loop fuel (reverse_map [((7, 7), 300)])
                (rev (merge_byte_pair [7; 7; 7; 8] (7, 7) 300)) []
    = Some [7; 7; 7; 8].
Proof.
  apply merge_then_decode. simpl. lia.
Defined.
(** ** The learner never meets a recorded pair again *)

Lemma ids_from_S (start : Z) (n : nat) :
  ids_from start (S n) = ids_from start n ++ [start + Z.of_nat n].
Proof. unfold ids_from. rewrite seq_S, map_app. reflexivity. Qed.

Lemma apply_rule_nonempty (s : list token) (q : pair_t) (new_id : token) :
  s <> [] -> apply_rule s q new_id <> [].
Proof.
  destruct s as [|x [|y rest]]; [contradiction | discriminate |].
  intros _. rewrite apply_rule_step. destruct (pair_eqb (x, y) q); discriminate.
Qed.

(** Under the invariants the selected pair is not in the merge map, so the
    iteration records it with the fresh id. *)
Lemma merged_state_fresh (m0 : Z) (st : train_state) (p : pair_t) :
  merged_inv m0 st -> occurs_adjacent p (byte_text st) ->
  merged_state st p
  = mk_state (merge_byte_pair (byte_text st) p (token_id st))
             (token_id st + 1) (merge_map st ++ [(p, token_id st)]).
Proof.
  intros (Hno & _) Hocc. unfold merged_state.
  destruct (dict_get pair_eqb (merge_map st) p) as [id|] eqn:Hg;
    [|reflexivity].
  apply (@dict_get_In _ _ _ pair_eqb_spec) in Hg.
  exfalso. exact (Hno _ _ Hg Hocc).
Qed.

Lemma merged_inv_step (m0 : Z) (st : train_state) (p : pair_t) :
  train_inv m0 st -> merged_inv m0 st ->
  occurs_adjacent p (byte_text st) ->
  merged_inv m0 (merged_state st p).
Proof.
  intros (Hseq & Hmap & _ & _) Hinv Hocc.
  rewrite (merged_state_fresh Hinv Hocc).
  destruct Hinv as (Hno & Hvals & Htid & Hne).
  destruct p as [a b].
  destruct (occurs_adjacent_In Hocc) as [Ha Hb]. apply Hseq in Ha, Hb.
  split; [|split; [|split]]; cbn [byte_text merge_map token_id].
  - intros [a' b'] id Hin Hocc'. rewrite merge_byte_pair_rule in Hocc'.
    apply in_app_or in Hin. destruct Hin as [Hin | [Hin | []]].
    + pose proof (Hmap _ _ _ Hin) as (Ha' & Hb' & _ & Hid).
      apply apply_rule_adjacent in Hocc'; cbn [fst snd]; try lia.
      destruct Hocc' as [Hocc' _]. exact (Hno _ _ Hin Hocc').
    + injection Hin as <- <- <-.
      apply apply_rule_adjacent in Hocc'; cbn [fst snd]; try lia.
      destruct Hocc' as [_ Hneq]. congruence.
  - unfold dict_values in *. rewrite map_app, length_app, Hvals.
    cbn [map length snd]. rewrite Nat.add_1_r, ids_from_S. f_equal.
    f_equal. lia.
  - rewrite length_app. cbn [length]. lia.
  - rewrite merge_byte_pair_rule. apply apply_rule_nonempty. exact Hne.
Qed.

Lemma merged_inv_init (corpus : list token) (m : Z) :
  corpus <> [] -> merged_inv m (mk_state corpus (m + 1) []).
Proof.
  intros Hne. repeat split; cbn; try lia; try assumption.
Qed.

Lemma bpe_loop_merged_inv (m0 : Z) (n : nat) (st st' : train_state) :
  train_inv m0 st -> m0 < token_id st -> merged_inv m0 st ->
  bpe_loop n st = Ok st' ->
  merged_inv m0 st'
  /\ (length (merge_map st') = length (merge_map st) + n
      \/ length (byte_text st') <= 1)%nat
  /\ (length (byte_text st') + length (merge_map st')
      <= length (byte_text st) + length (merge_map st))%nat
  /\ (length (byte_text st') <= length (byte_text st))%nat.
Proof.
  revert st; induction n as [|n IH]; intros st Hinv Hm0 Hminv.
  - simpl. intros H; injection H as <-. split; [assumption|].
    repeat split; lia.
  - rewrite bpe_loop_S.
    destruct (bpe_iteration_cases st) as [[Hlt Hb] | [_ [p [Hocc [_ Hs]]]]].
    + rewrite Hb. simpl. intros H; injection H as <-.
      split; [assumption|]. repeat split; lia.
    + rewrite Hs. simpl bind. intros Hl.
      pose proof (bpe_iteration_shortens st Hs) as Hshort.
      pose proof (merged_state_fresh Hminv Hocc) as Hfresh.
      assert (Hlen : length (merge_map (merged_state st p))
                     = S (length (merge_map st))).
      { rewrite Hfresh. cbn [merge_map]. rewrite length_app. simpl. lia. }
      destruct (IH (merged_state st p)) as (Hi & Hcount & Hsum & Hle);
        try assumption.
      * apply train_inv_merged; assumption.
      * pose proof (merged_state_counter st p). lia.
      * apply merged_inv_step; assumption.
      * split; [exact Hi|]. rewrite Hlen in *. repeat split; lia.
Qed.

(** What a successful call of [byte_pair_encoding] went through. *)
Lemma byte_pair_encoding_run (texts : list str) (num_merges : Z)
    (enc : list token) (mm : dict pair_t token) :
  byte_pair_encoding texts num_merges = Ok (enc, mm) ->
  exists corpus m st,
    join_corpus texts = Ok corpus /\ corpus <> [] /\ py_max corpus = Ok m
    /\ bpe_loop (Z.to_nat num_merges) (mk_state corpus (m + 1) []) = Ok st
    /\ enc = byte_text st /\ mm = merge_map st.
Proof.
  unfold byte_pair_encoding.
  destruct (join_corpus texts) as [corpus|e] eqn:Hj; [|discriminate].
  cbn [bind].
  destruct (py_max corpus) as [m|e] eqn:Hm; [|discriminate]. cbn [bind].
  destruct (bpe_loop (Z.to_nat num_merges) (mk_state corpus (m + 1) []))
    as [st|e] eqn:Hl; [|discriminate].
  cbn [bind]. intros H; injection H as <- <-.
  exists corpus, m, st. repeat split; try reflexivity; try assumption.
  intros ->. discriminate.
Qed.

(** X3. No learned pair is left unmerged: in the sequence that
    [byte_pair_encoding] returns, no key of the returned merge map occurs
    at two adjacent positions. *)
Theorem learned_pairs_merged (texts : list str) (num_merges : Z)
    (enc : list token) (mm : dict pair_t token) :
  byte_pair_encoding texts num_merges = Ok (enc, mm) ->
  forall p id, In (p, id) mm -> ~ occurs_adjacent p enc.
Proof.
  intros H.
  destruct (byte_pair_encoding_run _ _ H)
    as (corpus & m & st & Hj & Hne & Hm & Hl & -> & ->).
  destruct (@bpe_loop_merged_inv m (Z.to_nat num_merges)
              (mk_state corpus (m + 1) []) st) as ((Hno & _) & _);
    try assumption.
  - apply train_inv_init. exact Hm.
  - simpl. lia.
  - apply merged_inv_init. exact Hne.
Qed.

Lemma learned_pairs_merged_witness :
  ~ occurs_adjacent (97, 98) [101; 69; 80; 93; 99].
Proof.
  apply (@learned_pairs_merged [[97; 98]; [97; 98]] 3 [101; 69; 80; 93; 99]
           [((97, 98), 99); ((99, 91), 100); ((100, 83), 101)]
           eq_refl (97, 98) 99).
  left. reflexivity.
Defined.
(** X4. The ids of a returned merge map are consecutive: in insertion
    order they are [m + 1], [m + 2], ..., where [m] is the largest byte of
    the joined corpus. *)
Theorem merge_map_ids_consecutive (texts : list str) (num_merges : Z)
    (enc : list token) (mm : dict pair_t token) :
  byte_pair_encoding texts num_merges = Ok (enc, mm) ->
  exists corpus m,
    join_corpus texts = Ok corpus /\ py_max corpus = Ok m
    /\ dict_values mm = ids_from (m + 1) (length mm).
Proof.
  intros H.
  destruct (byte_pair_encoding_run _ _ H)
    as (corpus & m & st & Hj & Hne & Hm & Hl & -> & ->).
  destruct (@bpe_loop_merged_inv m (Z.to_nat num_merges)
              (mk_state corpus (m + 1) []) st) as ((_ & Hvals & _) & _);
    try assumption.
  - apply train_inv_init. exact Hm.
  - simpl. lia.
  - apply merged_inv_init. exact Hne.
  - exists corpus, m. repeat split; assumption.
Qed.

Lemma merge_map_ids_consecutive_witness :
  exists corpus m,
    join_corpus [[97; 98]; [97; 98]] = Ok corpus /\ py_max corpus = Ok m
    /\ dict_values [((97, 98), 99); ((99, 91), 100); ((100, 83), 101)]
       = ids_from (m + 1) 3.
Proof.
  apply (@merge_map_ids_consecutive [[97; 98]; [97; 98]] 3
           [101; 69; 80; 93; 99]
           [((97, 98), 99); ((99, 91), 100); ((100, 83), 101)]).
  reflexivity.
Defined.

(** X5. Number of merges: a successful run either records exactly
    [num_merges] merges (none when [num_merges] is negative) or ends with a
    single token; the returned sequence is never empty, and its length plus
    the number of merges is at most the length of the joined corpus. *)
Theorem merge_count (texts : list str) (num_merges : Z)
    (enc : list token) (mm : dict pair_t token) (corpus : list token) :
  byte_pair_encoding texts num_merges = Ok (enc, mm) ->
  join_corpus texts = Ok corpus ->
  (length mm = Z.to_nat num_merges \/ length enc = 1)%nat
  /\ (length enc + length mm <= length corpus)%nat
  /\ (1 <= length enc)%nat.
Proof.
  intros H Hc.
  destruct (byte_pair_encoding_run _ _ H)
    as (corpus' & m & st & Hj & Hne & Hm & Hl & -> & ->).
  rewrite Hc in Hj. apply Ok_inj in Hj. subst corpus'.
  destruct (@bpe_loop_merged_inv m (Z.to_nat num_merges)
              (mk_state corpus (m + 1) []) st)
    as ((_ & _ & _ & Hnonempty) & Hcount & Hsum & _); try assumption.
  - apply train_inv_init. exact Hm.
  - simpl. lia.
  - apply merged_inv_init. exact Hne.
  - cbn [merge_map byte_text length] in Hcount, Hsum.
    assert (1 <= length (byte_text st))%nat.
    { destruct (byte_text st); [contradiction | simpl; lia]. }
    repeat split; lia.
Qed.

Lemma merge_count_witness :
  let enc : list Z := [101; 69; 80; 93; 99] in
  let mm : dict (Z * Z) Z :=
    [((97, 98), 99); ((99, 91), 100); ((100, 83), 101)] in
  let corpus : list Z := [97; 98; 91; 83; 69; 80; 93; 97; 98] in
  (length mm = Z.to_nat 3 \/ length enc = 1)%nat
  /\ (length enc + length mm <= length corpus)%nat
  /\ (1 <= length enc)%nat.
Proof.
  apply (@merge_count [[97; 98]; [97; 98]] 3); reflexivity.
Defined.

(** ** Outcomes of [byte_pair_encoding] *)

Lemma utf8_encode_char_outcome (c : Z) :
  match utf8_encode_char c with
  | Ok _ => scalar_value c
  | Raise e => e = UnicodeEncodeError /\ ~ scalar_value c
  end.
Proof.
  unfold utf8_encode_char, is_surrogate, scalar_value.
  destruct (Z.ltb_spec c 0); [split; [reflexivity | lia]|].
  destruct (Z.ltb_spec c 0x80); [lia|].
  destruct (Z.ltb_spec c 0x800); [lia|].
  destruct (Z.ltb_spec c 0x10000).
  { destruct (in_range 0xD800 0xDFFF c) eqn:Hs.
    - apply in_range_iff in Hs. split; [reflexivity | lia].
    - apply in_range_false in Hs. lia. }
  destruct (Z.ltb_spec c 0x110000); [lia | split; [reflexivity | lia]].
Qed.

Lemma utf8_encode_outcome (s : str) :
  match utf8_encode s with
  | Ok _ => utf8_text s
  | Raise e => e = UnicodeEncodeError /\ ~ utf8_text s
  end.
Proof.
  induction s as [|c s IH]; cbn [utf8_encode].
  - constructor.
  - pose proof (utf8_encode_char_outcome c) as Hc.
    destruct (utf8_encode_char c) as [b|e]; cbn [bind].
    + destruct (utf8_encode s) as [more|e]; cbn [bind].
      * constructor; assumption.
      * destruct IH as [-> Hn]. split; [reflexivity|].
        intros H. inversion H. contradiction.
    + destruct Hc as [-> Hn]. split; [reflexivity|].
      intros H. inversion H. contradiction.
Qed.

Lemma encode_all_outcome (texts : list str) :
  match encode_all texts with
  | Ok _ => Forall utf8_text texts
  | Raise e => e = UnicodeEncodeError /\ ~ Forall utf8_text texts
  end.
Proof.
  induction texts as [|t texts IH]; cbn [encode_all].
  - constructor.
  - pose proof (utf8_encode_outcome t) as Ht.
    destruct (utf8_encode t) as [b|e]; cbn [bind].
    + destruct (encode_all texts) as [bs|e]; cbn [bind].
      * constructor; assumption.
      * destruct IH as [-> Hn]. split; [reflexivity|].
        intros H. inversion H. contradiction.
    + destruct Ht as [-> Hn]. split; [reflexivity|].
      intros H. inversion H. contradiction.
Qed.

(** X6. Outcomes of [byte_pair_encoding], for every input: it raises
    [UnicodeEncodeError] exactly when some block holds a code point that
    UTF-8 cannot encode; otherwise it raises [ValueError] exactly when the
    joined corpus is empty (no block at all, or one empty block); otherwise it
    returns.  It raises nothing else, in particular no [KeyError]. *)
Theorem byte_pair_encoding_outcome (texts : list str) (num_merges : Z) :
  match byte_pair_encoding texts num_merges with
  | Ok _ => Forall utf8_text texts /\ texts <> [] /\ texts <> [[]]
  | Raise UnicodeEncodeError => ~ Forall utf8_text texts
  | Raise ValueError =>
      Forall utf8_text texts /\ (texts = [] \/ texts = [[]])
  | Raise _ => False
  end.
Proof.
  pose proof (encode_all_outcome texts) as Henc.
  destruct (encode_all texts) as [parts|e] eqn:Hparts.
  - destruct (join_corpus_total Henc) as (corpus & Hj & _ & Hempty).
    destruct corpus as [|x rest].
    + unfold byte_pair_encoding. rewrite Hj. cbn.
      split; [assumption | auto].
    + destruct (@training_recoverable texts (x :: rest) num_merges Hj)
        as (enc & mm & Hbpe & _); [discriminate|].
      rewrite Hbpe. split; [assumption|].
      split; intros ->; discriminate.
  - destruct Henc as [-> Hn].
    unfold byte_pair_encoding, join_corpus. rewrite Hparts. exact Hn.
Qed.
(** ** More on the frequency table *)

Lemma defaultdict_incr_sum (d : dict pair_t Z) (k : pair_t) :
  fold_right Z.add 0 (dict_values (defaultdict_incr d k))
  = fold_right Z.add 0 (dict_values d) + 1.
Proof.
  unfold defaultdict_incr, dict_get_default.
  induction d as [|[k' v'] d IH]; cbn [dict_set dict_get dict_values map snd
                                        fold_right].
  - lia.
  - destruct (pair_eqb k' k); cbn [dict_values map snd fold_right].
    + lia.
    + unfold dict_values in IH. rewrite IH. lia.
Qed.

Lemma fold_incr_sum (ks : list pair_t) (d : dict pair_t Z) :
  fold_right Z.add 0 (dict_values (fold_left defaultdict_incr ks d))
  = fold_right Z.add 0 (dict_values d) + Z.of_nat (length ks).
Proof.
  revert d; induction ks as [|k ks IH]; intros d.
  - simpl. lia.
  - cbn [fold_left length]. rewrite IH, defaultdict_incr_sum. lia.
Qed.

Lemma dict_get_unique (d : dict pair_t Z) (k : pair_t) (v : Z) :
  NoDup (dict_keys d) -> In (k, v) d -> dict_get pair_eqb d k = Some v.
Proof.
  induction d as [|[k0 v0] d IH]; cbn [dict_keys map fst dict_get];
    intros Hnd Hin.
  - contradiction.
  - inversion Hnd as [|? ? Hnot Hnd']; subst.
    destruct Hin as [Heq | Hin].
    + injection Heq as -> ->. rewrite pair_eqb_refl. reflexivity.
    + destruct (pair_eqb_spec k0 k) as [->|Hne].
      * exfalso. apply Hnot. apply (in_map fst) in Hin. exact Hin.
      * apply IH; assumption.
Qed.

(** X7. The counts of the frequency table add up to the number of adjacent
    positions, [len(seq) - 1] (0 for an empty sequence); every entry has a
    count of at least 1 and its key is an adjacent pair of the sequence. *)
Theorem frequency_total (s : list token) :
  fold_right Z.add 0 (dict_values (get_byte_pair_frequency s))
  = Z.of_nat (length s - 1)
  /\ (forall p c, In (p, c) (get_byte_pair_frequency s) ->
                  1 <= c /\ occurs_adjacent p s).
Proof.
  split.
  - rewrite frequency_as_fold, fold_incr_sum, length_map, length_seq.
    reflexivity.
  - intros p c Hin.
    assert (Hget : dict_get pair_eqb (get_byte_pair_frequency s) p = Some c).
    { apply dict_get_unique; [apply frequency_NoDup | exact Hin]. }
    rewrite frequency_get in Hget.
    pose proof (pair_occurrences_nonneg s p) as Hn.
    destruct (Z.eqb_spec (pair_occurrences s p) 0); [discriminate|].
    injection Hget as <-. split; [lia|].
    apply pair_occurrences_pos. lia.
Qed.
(** ** Which of several most frequent pairs is selected *)

Lemma max_fold_first (A : Type) (key : A -> Z) (rest pre mid : list A)
    (x : A) :
  (forall y, In y pre -> key y < key x) ->
  (forall y, In y mid -> key y <= key x) ->
  exists l1 l2,
    pre ++ x :: mid ++ rest
    = l1 ++ fold_left (fun m v => if key m <? key v then v else m) rest x
         :: l2
    /\ (forall y, In y l1 ->
          key y < key (fold_left (fun m v => if key m <? key v then v else m)
                                 rest x))
    /\ (forall y, In y l2 ->
          key y <= key (fold_left (fun m v => if key m <? key v then v else m)
                                  rest x)).
Proof.
  revert pre mid x. induction rest as [|z rest IH]; intros pre mid x Hpre Hmid.
  - exists pre, mid. rewrite app_nil_r. repeat split; assumption.
  - cbn [fold_left]. destruct (Z.ltb_spec (key x) (key z)) as [Hlt|Hge].
    + destruct (IH (pre ++ x :: mid) [] z) as (l1 & l2 & Heq & H1 & H2).
      * intros y Hy. apply in_app_or in Hy. destruct Hy as [Hy|[<-|Hy]].
        -- apply Hpre in Hy. lia.
        -- exact Hlt.
        -- apply Hmid in Hy. lia.
      * intros y [].
      * exists l1, l2. split; [|split; assumption].
        rewrite <- Heq. cbn [app]. rewrite <- !app_assoc. reflexivity.
    + destruct (IH pre (mid ++ [z]) x) as (l1 & l2 & Heq & H1 & H2).
      * exact Hpre.
      * intros y Hy. apply in_app_or in Hy. destruct Hy as [Hy|[<-|[]]].
        -- apply Hmid; exact Hy.
        -- exact Hge.
      * exists l1, l2. split; [|split; assumption].
        rewrite <- Heq. rewrite <- !app_assoc. reflexivity.
Qed.

(** [max(items, key=key)] returns the first of the items with the largest
    key. *)
Lemma py_max_key_first (A : Type) (key : A -> Z) (items : list A) (m : A) :
  py_max_key key items = Ok m ->
  exists l1 l2,
    items = l1 ++ m :: l2
    /\ (forall y, In y l1 -> key y < key m)
    /\ (forall y, In y l2 -> key y <= key m).
Proof.
  destruct items as [|x rest]; [discriminate|].
  unfold py_max_key. intros E. apply Ok_inj in E. subst m.
  apply (@max_fold_first A key rest [] [] x); intros y [].
Qed.

Lemma dict_set_keys (d : dict pair_t Z) (k : pair_t) (v : Z) :
  dict_keys (dict_set pair_eqb d k v)
  = if dict_contains pair_eqb d k then dict_keys d else dict_keys d ++ [k].
Proof.
  unfold dict_contains, dict_keys.
  induction d as [|[k0 v0] d IH]; cbn [dict_set dict_get map fst].
  - reflexivity.
  - destruct (pair_eqb k0 k); cbn [map fst]; [reflexivity|].
    rewrite IH. destruct (dict_get pair_eqb d k); reflexivity.
Qed.

Lemma fold_incr_keys_prefix (ks : list pair_t) (d : dict pair_t Z) :
  exists extra,
    dict_keys (fold_left defaultdict_incr ks d) = dict_keys d ++ extra.
Proof.
  revert d; induction ks as [|k ks IH]; intros d.
  - exists []. rewrite app_nil_r. reflexivity.
  - cbn [fold_left]. destruct (IH (defaultdict_incr d k)) as [extra He].
    rewrite He. unfold defaultdict_incr. rewrite dict_set_keys.
    destruct (dict_contains pair_eqb d k).
    + exists extra. reflexivity.
    + exists (k :: extra). rewrite <- app_assoc. reflexivity.
Qed.

Lemma fold_incr_keys_In (ks : list pair_t) (d : dict pair_t Z) (k : pair_t) :
  In k (dict_keys (fold_left defaultdict_incr ks d))
  <-> In k (dict_keys d) \/ In k ks.
Proof.
  revert d; induction ks as [|k0 ks IH]; intros d.
  - simpl. tauto.
  - cbn [fold_left]. rewrite IH. unfold defaultdict_incr.
    rewrite (@dict_keys_set _ _ _ pair_eqb_spec). simpl. intuition congruence.
Qed.

(** The key of a pair enters the table when the pair is first met, after
    the keys of all pairs met before. *)
Lemma fold_incr_keys_first (pre post : list pair_t) (p : pair_t) :
  ~ In p pre ->
  exists l2,
    dict_keys (fold_left defaultdict_incr (pre ++ p :: post) [])
    = dict_keys (fold_left defaultdict_incr pre []) ++ p :: l2.
Proof.
  intros Hnot. rewrite fold_left_app. cbn [fold_left].
  destruct (fold_incr_keys_prefix post
              (defaultdict_incr (fold_left defaultdict_incr pre []) p))
    as [extra He].
  rewrite He. unfold defaultdict_incr at 1. rewrite dict_set_keys.
  unfold dict_contains.
  destruct (dict_get pair_eqb (fold_left defaultdict_incr pre []) p) eqn:Hg.
  - exfalso. apply (@dict_get_In _ _ _ pair_eqb_spec) in Hg.
    apply (in_map fst) in Hg. apply fold_incr_keys_In in Hg.
    destruct Hg as [[] | Hg]. contradiction.
  - exists extra. rewrite <- app_assoc. reflexivity.
Qed.

Lemma first_occurrence_split (ks : list pair_t) (p : pair_t) :
  In p ks -> exists pre post, ks = pre ++ p :: post /\ ~ In p pre.
Proof.
  induction ks as [|k ks IH]; intros Hin; [contradiction|].
  destruct (pair_eqb_spec k p) as [->|Hne].
  - exists [], ks. split; [reflexivity | intros []].
  - destruct Hin as [E|Hin]; [contradiction|].
    destruct (IH Hin) as (pre & post & -> & Hnot).
    exists (k :: pre), post. split; [reflexivity|].
    intros [E|H]; contradiction.
Qed.

Lemma NoDup_split_unique (l1 l2 l1' l2' : list pair_t) (p : pair_t) :
  NoDup (l1 ++ p :: l2) -> l1 ++ p :: l2 = l1' ++ p :: l2' -> l1 = l1'.
Proof.
  revert l1'. induction l1 as [|x l1 IH]; intros l1' Hnd Heq.
  - destruct l1' as [|y l1']; [reflexivity|].
    cbn [app] in *. injection Heq as <- Heq.
    inversion Hnd as [|? ? Hnot _]; subst. exfalso. apply Hnot.
    apply in_or_app. right; left; reflexivity.
  - destruct l1' as [|y l1'].
    + cbn [app] in *. injection Heq as -> Heq.
      inversion Hnd as [|? ? Hnot _]; subst. exfalso. apply Hnot.
      apply in_or_app. right; left; reflexivity.
    + cbn [app] in *. injection Heq as <- Heq.
      inversion Hnd; subst. f_equal. apply IH; assumption.
Qed.

Lemma bpe_iteration_selected (st : train_state) :
  (2 <= length (byte_text st))%nat ->
  exists p,
    py_max_key
      (fun k => dict_get_default pair_eqb
                  (get_byte_pair_frequency (byte_text st)) k 0)
      (dict_keys (get_byte_pair_frequency (byte_text st))) = Ok p
    /\ bpe_iteration st = Ok (Some (merged_state st p)).
Proof.
  intros Hlen. unfold bpe_iteration.
  destruct (get_byte_pair_frequency (byte_text st)) as [|e l] eqn:Hf.
  { apply frequency_empty in Hf. lia. }
  destruct (py_max_key_spec
              (fun k => dict_get_default pair_eqb (e :: l) k 0)
              (fst e) (map fst l)) as [p [Hmax _]].
  unfold dict_keys; cbn [map]. rewrite Hmax. cbn [bind].
  exists p. split; [reflexivity|].
  unfold merged_state, dict_contains, dict_subscript.
  destruct (dict_get pair_eqb (merge_map st) p) as [id|] eqn:Hg; cbn.
  - rewrite Hg. reflexivity.
  - rewrite (@dict_get_set _ _ _ pair_eqb_spec), pair_eqb_refl.
    cbn. rewrite (@dict_set_fresh _ _ pair_eqb) by assumption.
    reflexivity.
Qed.

Lemma pairs_list_nth (s : list token) (j : nat) :
  (j + 1 < length s)%nat ->
  nth j (map (pairs_at s) (seq 0 (length s - 1))) (0, 0) = pairs_at s j.
Proof.
  intros H.
  rewrite (nth_indep _ (0, 0) (pairs_at s 0))
    by (rewrite length_map, length_seq; lia).
  rewrite (map_nth (pairs_at s)), seq_nth by lia. reflexivity.
Qed.

(** X8. Tie-break of the learner: in an iteration that finds a pair, the
    selected pair has maximal frequency and, among the pairs of maximal
    frequency, it is the one met first in the sequence: every pair that
    occurs at a position before the first occurrence of the selected pair
    is strictly less frequent. *)
Theorem tie_break_first_occurrence (st : train_state) :
  (2 <= length (byte_text st))%nat ->
  exists p i,
    bpe_iteration st = Ok (Some (merged_state st p))
    /\ occurs_at p (byte_text st) i
    /\ (forall j, (j < i)%nat -> ~ occurs_at p (byte_text st) j)
    /\ (forall q j,
          (j < i)%nat -> occurs_at q (byte_text st) j ->
          pair_occurrences (byte_text st) q
          < pair_occurrences (byte_text st) p)
    /\ (forall q, pair_occurrences (byte_text st) q
                  <= pair_occurrences (byte_text st) p).
Proof.
  intros Hlen. set (s := byte_text st) in *.
  destruct (bpe_iteration_selected st Hlen) as (p & Hmax & Hit).
  fold s in Hmax.
  destruct (py_max_key_first _ _ Hmax) as (l1 & l2 & Hkeys & Hbefore & Hafter).
  set (ks := map (pairs_at s) (seq 0 (length s - 1))).
  assert (Hfold : get_byte_pair_frequency s = fold_left defaultdict_incr ks [])
    by apply frequency_as_fold.
  assert (Hp : In p ks).
  { assert (Hin : In p (dict_keys (get_byte_pair_frequency s))).
    { rewrite Hkeys. apply in_or_app. right; left; reflexivity. }
    rewrite Hfold in Hin. apply fold_incr_keys_In in Hin.
    destruct Hin as [[]|Hin]. exact Hin. }
  destruct (first_occurrence_split _ _ Hp) as (pre & post & Hks & Hnot).
  destruct (@fold_incr_keys_first pre post p Hnot) as [l2' Hfirst].
  rewrite <- Hks, <- Hfold, Hkeys in Hfirst.
  assert (Hl1 : l1 = dict_keys (fold_left defaultdict_incr pre [])).
  { eapply NoDup_split_unique; [|exact Hfirst].
    rewrite <- Hkeys. apply frequency_NoDup. }
  assert (Hlenks : length ks = (length s - 1)%nat).
  { unfold ks. rewrite length_map, length_seq. reflexivity. }
  assert (Hpre : (length pre + 1 < length s)%nat).
  { rewrite Hks, length_app in Hlenks. simpl in Hlenks. lia. }
  assert (Hnth : forall j, (j + 1 < length s)%nat -> nth j ks (0, 0) = pairs_at s j).
  { intros j Hj. apply pairs_list_nth. exact Hj. }
  assert (Hprej : forall j, (j < length pre)%nat -> In (pairs_at s j) pre).
  { intros j Hj. rewrite <- Hnth by lia. rewrite Hks.
    rewrite app_nth1 by exact Hj. apply nth_In. exact Hj. }
  exists p, (length pre). split; [exact Hit|].
  assert (Hkey : forall q,
             dict_get_default pair_eqb (get_byte_pair_frequency s) q 0
             = pair_occurrences s q) by (intros; apply frequency_key).
  split; [|split; [|split]].
  - split; [exact Hpre|]. change (pairs_at s (length pre) = p).
    rewrite <- Hnth by exact Hpre. rewrite Hks, nth_middle. reflexivity.
  - intros j Hj [_ Hocc]. apply Hnot. change (pairs_at s j = p) in Hocc.
    rewrite <- Hocc. apply Hprej. exact Hj.
  - intros q j Hj [_ Hocc]. change (pairs_at s j = q) in Hocc.
    rewrite <- !Hkey. apply Hbefore. rewrite Hl1.
    apply fold_incr_keys_In. right. rewrite <- Hocc. apply Hprej. exact Hj.
  - intros q. rewrite <- !Hkey.
    destruct (Z.eqb_spec (pair_occurrences s q) 0) as [E|E].
    + rewrite (Hkey q), E, Hkey. apply pair_occurrences_nonneg.
    + assert (Hq : In q (dict_keys (get_byte_pair_frequency s))).
      { apply frequency_keys. apply pair_occurrences_pos.
        pose proof (pair_occurrences_nonneg s q). lia. }
      rewrite Hkeys in Hq. apply in_app_or in Hq.
      destruct Hq as [Hq | [<- | Hq]].
      * apply Z.lt_le_incl. apply Hbefore. exact Hq.
      * lia.
      * apply Hafter. exact Hq.
Qed.

Lemma tie_break_first_occurrence_witness :
  let st := mk_state [1; 2; 3; 4; 3; 4; 1; 2] 5 [] in
  exists p i,
    bpe_iteration st = Ok (Some (merged_state st p))
    /\ occurs_at p (byte_text st) i
    /\ (forall j, (j < i)%nat -> ~ occurs_at p (byte_text st) j)
    /\ (forall q j,
          (j < i)%nat -> occurs_at q (byte_text st) j ->
          pair_occurrences (byte_text st) q
          < pair_occurrences (byte_text st) p)
    /\ (forall q, pair_occurrences (byte_text st) q
                  <= pair_occurrences (byte_text st) p).
Proof.
  apply tie_break_first_occurrence. simpl. lia.
Defined.
(** ** Splitting on any separator *)

Lemma starts_with_app (p text more : str) :
  starts_with p text = true -> starts_with p (text ++ more) = true.
Proof.
  revert text; induction p as [|x p IH]; intros text H; [reflexivity|].
  destruct text as [|c cs]; [discriminate|]. cbn [starts_with app] in *.
  apply andb_true_iff in H. destruct H as [Hx Hp].
  rewrite Hx. cbn [andb]. auto.
Qed.

Lemma split_loop_nonempty (s0 : Z) (sep' text cur : str) :
  split_loop s0 sep' text cur <> [].
Proof.
  revert cur; induction text as [|c rest IH]; intros cur.
  - rewrite split_loop_nil. discriminate.
  - destruct (starts_with (s0 :: sep') (c :: rest)) eqn:Hs.
    + rewrite split_loop_match by exact Hs. discriminate.
    + rewrite split_loop_nomatch by exact Hs. apply IH.
Qed.

Lemma split_loop_rejoin (s0 : Z) (sep' text cur : str) :
  join (s0 :: sep') (split_loop s0 sep' text cur) = cur ++ text.
Proof.
  remember (length text) as n eqn:Hn. revert text cur Hn.
  induction n as [n IH] using lt_wf_ind. intros text cur Hn.
  destruct text as [|c rest].
  - rewrite split_loop_nil, app_nil_r. reflexivity.
  - destruct (starts_with (s0 :: sep') (c :: rest)) eqn:Hs.
    + rewrite split_loop_match by exact Hs.
      rewrite join_cons_nonempty by apply split_loop_nonempty.
      rewrite (IH (length (skipn (length sep') rest))); [| | reflexivity].
      * apply starts_with_split in Hs. rewrite Hs at 1. reflexivity.
      * subst n. cbn [length]. rewrite length_skipn. lia.
    + rewrite split_loop_nomatch by exact Hs.
      rewrite (IH (length rest)); [| | reflexivity].
      * rewrite <- app_assoc. reflexivity.
      * subst n. simpl. lia.
Qed.

Lemma contains_false_suffix (sub text : str) (i : nat) :
  contains sub text = false -> starts_with sub (skipn i text) = false.
Proof.
  revert i; induction text as [|c text IH]; intros i H.
  - destruct i; cbn [skipn]; cbn [contains] in H;
      apply orb_false_iff in H; apply H.
  - cbn [contains] in H. apply orb_false_iff in H. destruct H as [H0 H1].
    destruct i as [|i]; [exact H0|]. cbn [skipn]. apply IH. exact H1.
Qed.

Lemma contains_false_intro (sub text : str) :
  (forall i, (i <= length text)%nat -> starts_with sub (skipn i text) = false) ->
  contains sub text = false.
Proof.
  induction text as [|c text IH]; intros H.
  - cbn [contains]. apply orb_false_iff. split; [|reflexivity].
    apply (H O). simpl; lia.
  - cbn [contains]. apply orb_false_iff. split.
    + apply (H O). simpl; lia.
    + apply IH. intros i Hi. apply (H (S i)). simpl; lia.
Qed.

Lemma skipn_app_l (A : Type) (l1 l2 : list A) (i : nat) :
  (i <= length l1)%nat -> skipn i (l1 ++ l2) = skipn i l1 ++ l2.
Proof.
  intros H. rewrite skipn_app.
  replace (i - length l1)%nat with O by lia. reflexivity.
Qed.

(** No occurrence of the separator starts inside the current piece. *)
Lemma split_loop_pieces (s0 : Z) (sep' text cur : str) :
  (forall i, (i < length cur)%nat ->
             starts_with (s0 :: sep') (skipn i (cur ++ text)) = false) ->
  Forall (fun piece => contains (s0 :: sep') piece = false)
         (split_loop s0 sep' text cur).
Proof.
  remember (length text) as n eqn:Hn. revert text cur Hn.
  induction n as [n IH] using lt_wf_ind. intros text cur Hn Hcur.
  assert (Hpiece : contains (s0 :: sep') cur = false).
  { apply contains_false_intro. intros i Hi.
    destruct (Nat.eq_dec i (length cur)) as [->|Hne].
    - rewrite skipn_all. reflexivity.
    - destruct (starts_with (s0 :: sep') (skipn i cur)) eqn:E;
        [|reflexivity].
      apply (starts_with_app _ _ text) in E.
      rewrite <- skipn_app_l in E by lia. rewrite Hcur in E by lia.
      discriminate. }
  destruct text as [|c rest].
  - rewrite split_loop_nil. constructor; [exact Hpiece | constructor].
  - destruct (starts_with (s0 :: sep') (c :: rest)) eqn:Hs.
    + rewrite split_loop_match by exact Hs. constructor; [exact Hpiece|].
      apply (IH (length (skipn (length sep') rest))); [| reflexivity |].
      * subst n. cbn [length]. rewrite length_skipn. lia.
      * intros i Hi. simpl in Hi. lia.
    + rewrite split_loop_nomatch by exact Hs.
      apply (IH (length rest)); [subst n; simpl; lia | reflexivity |].
      intros i Hi. rewrite length_app in Hi. cbn [length] in Hi.
      rewrite <- app_assoc. cbn [app].
      destruct (Nat.eq_dec i (length cur)) as [->|Hne].
      * rewrite skipn_app_l by lia. rewrite skipn_all. exact Hs.
      * apply Hcur. lia.
Qed.

(** X9. [split_on_sep] with any separator: it raises [ValueError] exactly
    when the separator is empty; otherwise it returns at least one piece,
    the pieces joined with the separator give the text back, and no piece
    contains the separator. *)
Theorem split_on_sep_any_separator (text sep_token : str) :
  match split_on_sep text sep_token with
  | Ok pieces =>
      sep_token <> []
      /\ pieces <> []
      /\ join sep_token pieces = text
      /\ Forall (fun piece => contains sep_token piece = false) pieces
  | Raise e => e = ValueError /\ sep_token = []
  end.
Proof.
  unfold split_on_sep, str_split. destruct sep_token as [|s0 sep'].
  - split; reflexivity.
  - split; [discriminate|]. split; [apply split_loop_nonempty|]. split.
    + apply (split_loop_rejoin s0 sep' text []).
    + apply split_loop_pieces. intros i Hi. simpl in Hi. lia.
Qed.
(** ** More on the decoder *)

(** What the loop returns is the expansion of the stack, appended to the
    output it started with. *)
Lemma decode_loop_sound (fuel : nat) (rmm : dict token pair_t)
    (ts out buf : list token) :
  decode_loop fuel rmm (rev ts) out = Some buf ->
  exists l, buf = out ++ l /\ expands_list rmm ts l.
Proof.
  revert ts out; induction fuel as [|fuel IH]; intros ts out; [discriminate|].
  destruct ts as [|t ts].
  - cbn [rev]. rewrite decode_loop_S_nil. intros E; injection E as <-.
    exists []. rewrite app_nil_r. split; [reflexivity | constructor].
  - cbn [rev]. rewrite decode_loop_S_snoc.
    destruct (dict_get Z.eqb rmm t) as [[a b]|] eqn:Hget.
    + change ((rev ts ++ [b]) ++ [a]) with (rev (a :: b :: ts)).
      intros H. apply IH in H. destruct H as (l & -> & Hl).
      inversion Hl as [| ? ? la l1 Ha H1]; subst.
      inversion H1 as [| ? ? lb lr Hb Hr]; subst.
      exists ((la ++ lb) ++ lr). split.
      * rewrite <- app_assoc. reflexivity.
      * constructor; [|exact Hr]. eapply expands_id; eassumption.
    + intros H. apply IH in H. destruct H as (l & -> & Hl).
      exists ([t] ++ l). split.
      * rewrite <- app_assoc. reflexivity.
      * constructor; [|exact Hl]. apply expands_raw. exact Hget.
Qed.

Lemma expands_leaves (rmm : dict token pair_t) (t : token) (l : list token) :
  expands rmm t l ->
  (1 <= length l)%nat /\ forall x, In x l -> dict_get Z.eqb rmm x = None.
Proof.
  induction 1 as [t Hget | t a b la lb Hget _ [IHa1 IHa2] _ [IHb1 IHb2]].
  - split; [simpl; lia|]. intros x [<-|[]]. exact Hget.
  - split; [rewrite length_app; lia|].
    intros x Hx. apply in_app_or in Hx. destruct Hx; auto.
Qed.

Lemma expands_list_leaves (rmm : dict token pair_t) (ts l : list token) :
  expands_list rmm ts l ->
  (length ts <= length l)%nat
  /\ forall x, In x l -> dict_get Z.eqb rmm x = None.
Proof.
  induction 1 as [| t ts l ls Ht _ [IH1 IH2]].
  - split; [simpl; lia | intros x []].
  - destruct (expands_leaves Ht) as [H1 H2]. split.
    + rewrite length_app. simpl. lia.
    + intros x Hx. apply in_app_or in Hx. destruct Hx; auto.
Qed.

Lemma reverse_map_None (mm : dict pair_t token) (t : token) :
  dict_get Z.eqb (reverse_map mm) t = None <-> ~ In t (dict_values mm).
Proof.
  unfold dict_values.
  induction mm as [|[p id] mm IH] using rev_ind.
  - simpl. tauto.
  - rewrite reverse_map_snoc, (@dict_get_set _ _ _ Z.eqb_spec), map_app.
    cbn [map snd]. rewrite in_app_iff. cbn [In].
    destruct (Z.eqb_spec id t) as [->|Hne].
    + split; [discriminate | tauto].
    + rewrite IH. tauto.
Qed.

(** X10. The decoder expands fully: when the decoding loop ends, no
    element of the buffer it returns is an id of the merge map, and the
    buffer is at least as long as the encoded sequence. *)
Theorem decoded_buffer_fully_expanded (fuel : nat) (enc : list token)
    (mm : dict pair_t token) (buf : list token) :
  decode_loop fuel (reverse_map mm) (rev enc) [] = Some buf ->
  (forall t, In t buf -> ~ In t (dict_values mm))
  /\ (length enc <= length buf)%nat.
Proof.
  intros H. apply decode_loop_sound in H. destruct H as (l & -> & Hl).
  cbn [app]. destruct (expands_list_leaves Hl) as [Hlen Hleaf].
  split; [|exact Hlen].
  intros t Ht. apply reverse_map_None. apply Hleaf. exact Ht.
Qed.

Lemma decoded_buffer_fully_expanded_witness :
  (forall t, In t [97; 98; 97; 98; 120] ->
             ~ In t (dict_values [((97, 98), 256); ((256, 256), 257)]))
  /\ (length [257; 120] <= length [97; 98; 97; 98; 120])%nat.
Proof.
  apply (@decoded_buffer_fully_expanded 10 [257; 120]
           [((97, 98), 256); ((256, 256), 257)]).
  reflexivity.
Defined.

Lemma expands_list_app (rmm : dict token pair_t) (t1 t2 l1 l2 : list token) :
  expands_list rmm t1 l1 -> expands_list rmm t2 l2 ->
  expands_list rmm (t1 ++ t2) (l1 ++ l2).
Proof.
  induction 1 as [| t ts l ls Ht _ IH]; intros H2; [exact H2|].
  cbn [app]. rewrite <- app_assoc. constructor; [exact Ht | apply IH; exact H2].
Qed.

Lemma decode_byte_pair_inv (fuel : nat) (enc : list token)
    (mm : dict pair_t token) (s : str) :
  decode_byte_pair fuel enc mm = Some (Ok s) ->
  exists buf,
    decode_loop fuel (reverse_map mm) (rev enc) [] = Some buf
    /\ Forall is_byte buf /\ utf8_encode s = Ok buf.
Proof.
  unfold decode_byte_pair.
  destruct (decode_loop fuel (reverse_map mm) (rev enc) []) as [buf|] eqn:Hl;
    [|discriminate].
  intros E. injection E as E. exists buf. split; [reflexivity|].
  destruct (bytes_to_text_cases buf) as (_ & _ & Hok).
  apply Hok in E. split; [|exact E].
  apply utf8_roundtrip in E. apply E.
Qed.

(** X11. Decoding distributes over concatenation: when two encoded
    sequences decode to the texts [s1] and [s2] under a merge map, their
    concatenation decodes to [s1 ++ s2] under the same map, for every
    sufficient amount of fuel. *)
Theorem decode_concatenation (f1 f2 : nat) (e1 e2 : list token)
    (mm : dict pair_t token) (s1 s2 : str) :
  decode_byte_pair f1 e1 mm = Some (Ok s1) ->
  decode_byte_pair f2 e2 mm = Some (Ok s2) ->
  exists fuel0, forall fuel,
    (fuel0 <= fuel)%nat ->
    decode_byte_pair fuel (e1 ++ e2) mm = Some (Ok (s1 ++ s2)).
Proof.
  intros H1 H2.
  apply decode_byte_pair_inv in H1, H2.
  destruct H1 as (b1 & Hl1 & Hb1 & He1), H2 as (b2 & Hl2 & Hb2 & He2).
  apply decode_loop_sound in Hl1, Hl2.
  destruct Hl1 as (l1 & E1 & Hx1), Hl2 as (l2 & E2 & Hx2).
  cbn [app] in E1, E2. subst l1 l2.
  destruct (decode_loop_complete (expands_list_app Hx1 Hx2)) as [fuel0 Hfuel].
  exists fuel0. intros fuel Hle.
  unfold decode_byte_pair. rewrite (Hfuel fuel Hle).
  unfold bytes_to_text.
  rewrite py_bytes_ok by (apply Forall_app; split; assumption).
  cbn [bind].
  assert (Henc : utf8_encode (s1 ++ s2) = Ok (b1 ++ b2)).
  { rewrite utf8_encode_app, He1, He2. reflexivity. }
  apply utf8_roundtrip in Henc. destruct Henc as [Hd _]. rewrite Hd.
  reflexivity.
Qed.

Lemma decode_concatenation_witness :
  exists fuel0, forall fuel,
    (fuel0 <= fuel)%nat ->
    decode_byte_pair fuel ([256] ++ [98; 256]) [((97, 98), 256)]
    = Some (Ok ([97; 98] ++ [98; 97; 98])).
Proof.
  apply (@decode_concatenation 5 5 [256] [98; 256] [((97, 98), 256)]);
    reflexivity.
Defined.
(** ** The script *)

Lemma combine_diag (A : Type) (l : list A) :
  combine l l = map (fun t => (t, t)) l.
Proof. induction l as [|x l IH]; simpl; [|rewrite IH]; reflexivity. Qed.

Lemma combine_fst (A B : Type) (l : list A) (l' : list B) :
  (length l <= length l')%nat -> map fst (combine l l') = l.
Proof.
  revert l'; induction l as [|x l IH]; intros [|y l'] H; simpl in *;
    try reflexivity; try lia.
  f_equal. apply IH. lia.
Qed.

Lemma enumerate_snd (A : Type) (l : list A) : map snd (enumerate l) = l.
Proof.
  unfold enumerate. generalize 0%nat.
  induction l as [|x l IH]; intros n; simpl; [|rewrite IH]; reflexivity.
Qed.

Lemma enumerate_fst (A : Type) (l : list A) :
  map fst (enumerate l) = seq 0 (length l).
Proof.
  unfold enumerate. apply combine_fst. rewrite length_seq. lia.
Qed.

(** The decoded text of a successful training run, whatever the blocks
    hold. *)
Lemma trained_text (texts : list str) (n : Z) (enc : list token)
    (mm : dict pair_t token) :
  byte_pair_encoding texts n = Ok (enc, mm) ->
  exists fuel0, forall fuel,
    (fuel0 <= fuel)%nat ->
    decode_byte_pair fuel enc mm = Some (Ok (join SEP_TOKEN texts)).
Proof.
  intros H.
  destruct (byte_pair_encoding_run _ _ H)
    as (corpus & m & st & Hj & Hne & _ & _ & _ & _).
  destruct (@training_recoverable texts corpus n Hj Hne)
    as (enc' & mm' & Hbpe & fuel0 & Hloop).
  rewrite H in Hbpe. injection Hbpe as <- <-.
  exists fuel0. intros fuel Hfuel.
  unfold decode_byte_pair. rewrite (Hloop fuel Hfuel).
  unfold bytes_to_text.
  rewrite py_bytes_ok by (eapply join_corpus_bytes; exact Hj).
  cbn [bind]. rewrite join_corpus_encode in Hj.
  apply utf8_roundtrip in Hj. destruct Hj as [Hd _]. rewrite Hd.
  reflexivity.
Qed.

Lemma decode_byte_pair_mono (fuel k : nat) (enc : list token)
    (mm : dict pair_t token) (r : result str) :
  decode_byte_pair fuel enc mm = Some r ->
  decode_byte_pair (fuel + k) enc mm = Some r.
Proof.
  unfold decode_byte_pair.
  destruct (decode_loop fuel (reverse_map mm) (rev enc) []) as [buf|] eqn:Hl;
    [|discriminate].
  rewrite (@decode_loop_mono fuel k _ _ _ _ Hl). auto.
Qed.

(** X12. The script reports every block unchanged: for blocks that UTF-8
    can encode, none containing the separator text, with a non-empty
    joined corpus, the final loop of the script goes through the triples
    [(i, (block_i, block_i))] for all blocks in order: each decoded block
    equals its original. *)
Theorem script_reports_blocks (texts : list str) :
  Forall utf8_text texts ->
  Forall (fun b => contains SEP_TOKEN b = false) texts ->
  texts <> [] -> texts <> [[]] ->
  exists fuel0, forall fuel,
    (fuel0 <= fuel)%nat ->
    script fuel texts = Some (Ok (enumerate (map (fun t => (t, t)) texts))).
Proof.
  intros Htext Hsep Hne Hne1.
  destruct (join_corpus_total Htext) as (corpus & Hj & _ & Hempty).
  assert (Hcne : corpus <> []).
  { intros E. destruct (Hempty E); contradiction. }
  destruct (@training_recoverable texts corpus num_merges Hj Hcne)
    as (enc & mm & Hbpe & _).
  destruct (trained_text _ _ Hbpe) as [fuel0 Hdec].
  exists fuel0. intros fuel Hfuel. unfold script.
  rewrite Hbpe, (Hdec fuel Hfuel), split_join by assumption.
  rewrite combine_diag. reflexivity.
Qed.
Lemma occurrences_app_ge (sep a b : str) :
  (occurrences sep b <= occurrences sep (a ++ b))%nat.
Proof.
  induction a as [|c a IH]; [simpl; lia|].
  cbn [app occurrences]. lia.
Qed.

Lemma occurrences_sep_head (text : str) :
  occurrences SEP_TOKEN (SEP_TOKEN ++ text) = S (occurrences SEP_TOKEN text).
Proof. reflexivity. Qed.

(** The joined text holds at least the separators put between the blocks. *)
Lemma occurrences_join (texts : list str) :
  (length texts <= S (occurrences SEP_TOKEN (join SEP_TOKEN texts)))%nat.
Proof.
  induction texts as [| t | t u rest _ IH] using list_ind_two.
  - simpl; lia.
  - simpl; lia.
  - rewrite join_cons2.
    pose proof (occurrences_app_ge SEP_TOKEN t
                  (SEP_TOKEN ++ join SEP_TOKEN (u :: rest))) as Hge.
    rewrite occurrences_sep_head in Hge. cbn [length] in *. lia.
Qed.

(** X13. The script never drops a block: whenever it runs to its final
    loop, that loop goes through exactly one triple per input block,
    numbered from 0, whose originals are the input blocks in order, also
    when blocks contain the separator text (the decoded blocks are then
    paired off shifted). *)
Theorem script_keeps_every_block (fuel : nat) (texts : list str)
    (report : list (nat * (str * str))) :
  script fuel texts = Some (Ok report) ->
  length report = length texts
  /\ map fst report = seq 0 (length texts)
  /\ map (fun r => fst (snd r)) report = texts.
Proof.
  unfold script.
  destruct (byte_pair_encoding texts num_merges) as [[enc mm]|e] eqn:Hbpe;
    [|discriminate].
  destruct (decode_byte_pair fuel enc mm) as [[decoded|e]|] eqn:Hdec;
    try discriminate.
  destruct (trained_text _ _ Hbpe) as [fuel0 Hfuel0].
  assert (Hd : decoded = join SEP_TOKEN texts).
  { apply (@decode_byte_pair_mono fuel fuel0) in Hdec.
    rewrite (Hfuel0 (fuel + fuel0)%nat) in Hdec by lia. congruence. }
  subst decoded.
  destruct (split_on_sep_default (join SEP_TOKEN texts))
    as [text_blocks|e] eqn:Hsplit; [|discriminate].
  intros E. injection E as <-.
  assert (Hlen : (length texts <= length text_blocks)%nat).
  { unfold split_on_sep_default, split_on_sep, str_split in Hsplit.
    cbn [SEP_TOKEN] in Hsplit. apply Ok_inj in Hsplit. subst text_blocks.
    fold SEP_TOKEN. rewrite split_loop_length. apply occurrences_join. }
  assert (Hfst : map fst (combine texts text_blocks) = texts)
    by (apply combine_fst; exact Hlen).
  assert (Hclen : length (combine texts text_blocks) = length texts).
  { rewrite <- Hfst at 2. rewrite length_map. reflexivity. }
  split; [|split].
  - rewrite <- (enumerate_snd (combine texts text_blocks)) in Hclen.
    rewrite length_map in Hclen. exact Hclen.
  - rewrite enumerate_fst, Hclen. reflexivity.
  - rewrite <- (map_map snd fst), enumerate_snd. exact Hfst.
Qed.

Lemma script_keeps_every_block_witness :
  let texts := [[97; 91; 83; 69; 80; 93; 98]; [99]] in
  let report := [(0%nat, ([97; 91; 83; 69; 80; 93; 98], [97]));
                 (1%nat, ([99], [98]))] in
  length report = length texts
  /\ map fst report = seq 0 (length texts)
  /\ map (fun r => fst (snd r)) report = texts.
Proof.
  apply (@script_keeps_every_block 40
           [[97; 91; 83; 69; 80; 93; 98]; [99]]).
  vm_compute. reflexivity.
Defined.

Lemma script_reports_blocks_witness :
  exists fuel0, forall fuel,
    (fuel0 <= fuel)%nat ->
    script fuel [[97; 98]; []; [0x20AC]]
    = Some (Ok (enumerate (map (fun t => (t, t)) [[97; 98]; []; [0x20AC]]))).
Proof.
  apply script_reports_blocks.
  - repeat constructor; lia.
  - repeat constructor.
  - discriminate.
  - discriminate.
Defined.
(** ** Runs of different lengths *)

Lemma bpe_loop_add (k j : nat) (st st1 : train_state) :
  bpe_loop k st = Ok st1 -> bpe_loop (k + j) st = bpe_loop j st1.
Proof.
  revert st; induction k as [|k IH]; intros st.
  - simpl. intros H; injection H as <-. reflexivity.
  - change (S k + j)%nat with (S (k + j)). rewrite !bpe_loop_S.
    destruct (bpe_iteration_cases st) as [[Hlt Hb] | [_ [p [_ [_ Hs]]]]].
    + rewrite Hb. simpl. intros H; injection H as <-.
      symmetry. apply bpe_loop_exhausted. lia.
    + rewrite Hs. simpl bind. apply IH.
Qed.

(** Every merge that a run records shortens the sequence by at least one
    element. *)
Lemma bpe_loop_shortens (n : nat) (st st' : train_state) :
  bpe_loop n st = Ok st' ->
  (length (byte_text st') + length (merge_map st')
   <= length (byte_text st) + length (merge_map st))%nat.
Proof.
  revert st; induction n as [|n IH]; intros st.
  - simpl. intros H; injection H as <-. lia.
  - rewrite bpe_loop_S.
    destruct (bpe_iteration_cases st) as [[_ Hb] | [_ [p [_ [_ Hs]]]]].
    + rewrite Hb. simpl. intros H; injection H as <-. lia.
    + rewrite Hs. simpl bind. intros H. apply IH in H.
      pose proof (bpe_iteration_shortens st Hs).
      pose proof (merged_state_map_length st p). lia.
Qed.

(** X14. More merges never lengthen the output: for two successful runs
    on the same blocks with [k <= n], the run with [n] records at least as
    many merges, and its sequence is shorter by at least the number of
    merges it records beyond those of the run with [k]. *)
Theorem more_merges_shorter_output (texts : list str) (k n : Z)
    (enc_k enc_n : list token) (mm_k mm_n : dict pair_t token) :
  k <= n ->
  byte_pair_encoding texts k = Ok (enc_k, mm_k) ->
  byte_pair_encoding texts n = Ok (enc_n, mm_n) ->
  (length enc_n + length mm_n <= length enc_k + length mm_k)%nat
  /\ (length mm_k <= length mm_n)%nat.
Proof.
  intros Hkn Hk Hn.
  destruct (byte_pair_encoding_run _ _ Hk)
    as (corpus & m & stk & Hj & _ & Hm & Hlk & -> & ->).
  destruct (byte_pair_encoding_run _ _ Hn)
    as (corpus' & m' & stn & Hj' & _ & Hm' & Hln & -> & ->).
  rewrite Hj in Hj'. apply Ok_inj in Hj'. subst corpus'.
  rewrite Hm in Hm'. apply Ok_inj in Hm'. subst m'.
  replace (Z.to_nat n)
    with (Z.to_nat k + (Z.to_nat n - Z.to_nat k))%nat in Hln by lia.
  rewrite (@bpe_loop_add _ (Z.to_nat n - Z.to_nat k) _ _ Hlk) in Hln.
  split.
  - apply (@bpe_loop_shortens _ _ _ Hln).
  - destruct (@bpe_loop_extends _ _ _ Hln) as [more ->].
    rewrite length_app. lia.
Qed.

Lemma more_merges_shorter_output_witness :
  let enc_k : list Z := [99; 91; 83; 69; 80; 93; 99] in
  let mm_k : dict (Z * Z) Z := [((97, 98), 99)] in
  let enc_n : list Z := [101; 69; 80; 93; 99] in
  let mm_n : dict (Z * Z) Z :=
    [((97, 98), 99); ((99, 91), 100); ((100, 83), 101)] in
  (length enc_n + length mm_n <= length enc_k + length mm_k)%nat
  /\ (length mm_k <= length mm_n)%nat.
Proof.
  apply (@more_merges_shorter_output [[97; 98]; [97; 98]] 1 3);
    [lia | reflexivity | reflexivity].
Defined.

(** ** Shape of a merged sequence *)

Lemma apply_rule_half (s : list token) (q : pair_t) (new_id : token) :
  (length s <= 2 * length (apply_rule s q new_id))%nat.
Proof.
  induction s as [| x | x y rest IH1 IH2] using list_ind_two;
    try (simpl; lia).
  rewrite apply_rule_step. destruct (pair_eqb (x, y) q); cbn [length] in *; lia.
Qed.

(** X15. Shape of a merged sequence: every element of the result of
    [merge_byte_pair] is an element of the input or the new token; the
    result is no longer than the input and at least half as long. *)
Theorem merge_byte_pair_shape (s : list token) (pr : pair_t)
    (new_token : token) :
  (forall t, In t (merge_byte_pair s pr new_token) ->
             In t s \/ t = new_token)
  /\ (length s <= 2 * length (merge_byte_pair s pr new_token))%nat
  /\ (length (merge_byte_pair s pr new_token) <= length s)%nat.
Proof.
  rewrite merge_byte_pair_rule. split; [|split].
  - intros t. apply apply_rule_In.
  - apply apply_rule_half.
  - pose proof (apply_rule_length s pr new_token). lia.
Qed.

(** ** Trained merge maps *)

(** X16. A trained merge map is acyclic (every id is greater than both ids
    of its pair), so under it the decoding loop ends on every sequence of
    tokens, not only on the sequence training returned. *)
Theorem trained_map_decodes_everything (texts : list str) (n : Z)
    (enc : list token) (mm : dict pair_t token) :
  byte_pair_encoding texts n = Ok (enc, mm) ->
  acyclic mm
  /\ forall any : list token,
       exists fuel0 buf, forall fuel,
         (fuel0 <= fuel)%nat ->
         decode_loop fuel (reverse_map mm) (rev any) [] = Some buf.
Proof.
  intros H.
  destruct (byte_pair_encoding_run _ _ H)
    as (corpus & m & st & Hj & Hne & Hm & Hl & -> & ->).
  assert (Hacyc : acyclic (merge_map st)).
  { destruct (@bpe_loop_inv m (Z.to_nat n) (mk_state corpus (m + 1) []) st)
      as (_ & Hmap & _); try assumption.
    - apply train_inv_init. exact Hm.
    - simpl. lia.
    - intros a b id Hin. apply Hmap in Hin. lia. }
  split; [exact Hacyc|].
  intros any.
  destruct (@decode_loop_terminates any (merge_map st) Hacyc)
    as (fuel0 & buf & Hloop).
  exists fuel0, buf. intros fuel Hfuel.
  replace fuel with (fuel0 + (fuel - fuel0))%nat by lia.
  apply decode_loop_mono. exact Hloop.
Qed.

Lemma trained_map_decodes_everything_witness :
  acyclic [((97, 98), 99); ((99, 91), 100); ((100, 83), 101)]
  /\ forall any : list token,
       exists fuel0 buf, forall fuel,
         (fuel0 <= fuel)%nat ->
         decode_loop fuel
           (reverse_map [((97, 98), 99); ((99, 91), 100); ((100, 83), 101)])
           (rev any) []
         = Some buf.
Proof.
  apply (@trained_map_decodes_everything [[97; 98]; [97; 98]] 3
           [101; 69; 80; 93; 99]).
  reflexivity.
Defined.
(** ** Errors of the decoder, from the encoded sequence *)

Lemma expands_list_covers (rmm : dict token pair_t) (enc buf : list token)
    (t : token) :
  expands_list rmm enc buf -> In t enc ->
  exists l, expands rmm t l /\ incl l buf.
Proof.
  induction 1 as [| x ts l ls Hx _ IH]; intros Hin; [contradiction|].
  destruct Hin as [->|Hin].
  - exists l. split; [exact Hx | apply incl_appl, incl_refl].
  - destruct (IH Hin) as (l' & Hl' & Hincl).
    exists l'. split; [exact Hl' | apply incl_appr; exact Hincl].
Qed.

(** Every token the expansion goes through has its own expansion inside
    the full expansion of the sequence. *)
Lemma encounters_expands (rmm : dict token pair_t) (enc buf : list token)
    (x : token) :
  expands_list rmm enc buf -> encounters rmm enc x ->
  exists l, expands rmm x l /\ incl l buf.
Proof.
  intros Hbuf. induction 1 as [t Hin | t a b _ IH Hget | t a b _ IH Hget].
  - apply (@expands_list_covers rmm enc buf t Hbuf Hin).
  - destruct IH as (l & Hl & Hincl).
    inversion Hl as [? Hnone | ? a' b' la lb Hsome Ha Hb]; subst;
      [congruence|].
    rewrite Hget in Hsome. injection Hsome as <- <-.
    exists la. split; [exact Ha|].
    intros y Hy. apply Hincl. apply in_or_app. left; exact Hy.
  - destruct IH as (l & Hl & Hincl).
    inversion Hl as [? Hnone | ? a' b' la lb Hsome Ha Hb]; subst;
      [congruence|].
    rewrite Hget in Hsome. injection Hsome as <- <-.
    exists lb. split; [exact Hb|].
    intros y Hy. apply Hincl. apply in_or_app. right; exact Hy.
Qed.

(** A token outside the inverse map that the expansion goes through is an
    element of the full expansion. *)
Lemma encounters_unknown (rmm : dict token pair_t) (enc buf : list token)
    (t : token) :
  expands_list rmm enc buf -> encounters rmm enc t ->
  dict_get Z.eqb rmm t = None -> In t buf.
Proof.
  intros Hbuf Henc Hnone.
  destruct (@encounters_expands rmm enc buf t Hbuf Henc) as (l & Hl & Hincl).
  inversion Hl as [? _ | ? a b la lb Hsome _ _]; subst; [|congruence].
  apply Hincl. left; reflexivity.
Qed.

(** C3 (as amended). Decode-consistency errors are surfaced whenever the
    expansion loop ends, which it does under every merge map whose ids are
    greater than both ids of their pair.  What the loop then returns is the
    full expansion of the encoded sequence (and the loop returns every full
    expansion, given enough fuel).  If the expansion goes through an id
    that is outside the inverse-map domain and outside 0-255, decode raises
    [ValueError], as it does whenever the expansion holds a value outside
    0-255; if the expansion holds bytes only but is not the UTF-8 encoding
    of any string, decode raises [UnicodeDecodeError]; and a text that
    decode returns encodes to the whole expansion, so nothing was truncated
    or replaced. *)
Theorem decode_errors_surfaced (enc : list token) (mm : dict pair_t token) :
  (acyclic mm ->
   exists fuel0 buf,
     decode_loop fuel0 (reverse_map mm) (rev enc) [] = Some buf)
  /\ (forall fuel0 buf,
        decode_loop fuel0 (reverse_map mm) (rev enc) [] = Some buf ->
        expands_list (reverse_map mm) enc buf
        /\ forall fuel,
             (fuel0 <= fuel)%nat ->
             (forall t,
                encounters (reverse_map mm) enc t ->
                dict_get Z.eqb (reverse_map mm) t = None ->
                ~ is_byte t ->
                decode_byte_pair fuel enc mm = Some (Raise ValueError))
             /\ (~ Forall is_byte buf ->
                 decode_byte_pair fuel enc mm = Some (Raise ValueError))
             /\ (Forall is_byte buf -> (forall s, utf8_encode s <> Ok buf) ->
                 decode_byte_pair fuel enc mm
                 = Some (Raise UnicodeDecodeError))
             /\ (forall s,
                   decode_byte_pair fuel enc mm = Some (Ok s) ->
                   utf8_encode s = Ok buf))
  /\ (forall buf,
        expands_list (reverse_map mm) enc buf ->
        exists fuel0, forall fuel,
          (fuel0 <= fuel)%nat ->
          decode_loop fuel (reverse_map mm) (rev enc) [] = Some buf).
Proof.
  split; [apply decode_loop_terminates|].
  split; [|intros buf; apply decode_loop_complete].
  intros fuel0 buf Hloop.
  assert (Hexp : expands_list (reverse_map mm) enc buf).
  { destruct (@decode_loop_sound _ _ _ _ _ Hloop) as (l & -> & Hl). exact Hl. }
  split; [exact Hexp|].
  intros fuel Hfuel.
  assert (Hl : decode_loop fuel (reverse_map mm) (rev enc) [] = Some buf).
  { replace fuel with (fuel0 + (fuel - fuel0))%nat by lia.
    apply decode_loop_mono. exact Hloop. }
  unfold decode_byte_pair. rewrite Hl.
  destruct (bytes_to_text_cases buf) as (Hv & Hu & Hok).
  split; [|split; [|split]].
  - intros t Henc Hnone Hnb. rewrite Hv; [reflexivity|].
    intros Hall. apply Hnb. rewrite Forall_forall in Hall. apply Hall.
    apply (@encounters_unknown _ _ _ t Hexp Henc Hnone).
  - intros H. rewrite (Hv H). reflexivity.
  - intros Hb Hno. rewrite (Hu Hb Hno). reflexivity.
  - intros s E. apply Hok. congruence.
Qed.

Lemma decode_errors_surfaced_witness :
  decode_byte_pair 5 [256; 97] [((97, 300), 256)] = Some (Raise ValueError)
  /\ decode_byte_pair 5 [256] [((97, 200), 256)]
     = Some (Raise UnicodeDecodeError).
Proof.
  split.
  - refine (proj1 (proj2 (proj1 (proj2
              (decode_errors_surfaced [256; 97] [((97, 300), 256)]))
              5%nat [97; 300; 97] eq_refl) 5%nat _) 300 _ eq_refl _).
    + lia.
    + apply encounters_second with (t := 256) (a := 97);
        [apply encounters_input; left; reflexivity | reflexivity].
    + unfold is_byte. lia.
  - refine (proj1 (proj2 (proj2 (proj2 (proj1 (proj2
              (decode_errors_surfaced [256] [((97, 200), 256)]))
              4%nat [97; 200] eq_refl) 5%nat _))) _ _).
    + lia.
    + repeat constructor; unfold is_byte; lia.
    + intros s Hs. apply utf8_roundtrip in Hs. destruct Hs as [Hs _].
      discriminate.
Defined.

(** Two ways in which an id outside the inverse map raises no error.
    Under a merge map that sends an id to a pair holding the id itself the
    loop never ends: the expansion of [[300, 256]] goes through 300, which
    is outside the map and outside 0-255, yet no amount of fuel gives an
    error.  And an id within 0-255 is taken for a raw byte: 99 is the id
    that training on ["ab"] assigns, and decoding [[99]] with the empty
    merge map returns the text "c". *)
Lemma decode_error_not_surfaced :
  (encounters (reverse_map [((256, 97), 256)]) [300; 256] 300
   /\ dict_get Z.eqb (reverse_map [((256, 97), 256)]) 300 = None
   /\ ~ is_byte 300
   /\ forall fuel,
        decode_byte_pair fuel [300; 256] [((256, 97), 256)] = None)
  /\ (byte_pair_encoding [[97; 98]] 1 = Ok ([99], [((97, 98), 99)])
      /\ encounters (reverse_map []) [99] 99
      /\ dict_get Z.eqb (reverse_map []) 99 = None
      /\ forall fuel,
           (2 <= fuel)%nat ->
           decode_byte_pair fuel [99] [] = Some (Ok [99])).
Proof.
  split.
  - split; [apply encounters_input; left; reflexivity|].
    split; [reflexivity|]. split; [unfold is_byte; lia|].
    apply decode_cyclic_map_diverges.
  - split; [reflexivity|].
    split; [apply encounters_input; left; reflexivity|].
    split; [reflexivity|].
    intros fuel Hfuel. unfold decode_byte_pair.
    change (reverse_map []) with (@nil (Z * (Z * Z))).
    destruct fuel as [|[|fuel]]; try lia.
    change (rev [99]) with ([] ++ [99]).
    rewrite decode_loop_S_snoc. cbn [dict_get].
    rewrite decode_loop_S_nil. reflexivity.
Qed.
